(** * Hyde: a toy JavaScript front end (lexer and parser)

    Shallow embedding of the two lexers and the two parsers of the
    repository, and the properties of the specification settled on them.

    - [LexA]   : [tokenize] of src/parser.js (the TOKEN_TYPES variant);
    - [LexB]   : [tokenize] of src/unnamed/part_000 (the range/loc variant);
    - [ParseA] : the first [parse] of src/parser.js (the [walk] variant),
                 the consumer of [LexA]'s tokens;
    - [ParseB] : the second [parse] of src/parser.js (expression
                 statements), the consumer of [LexB]'s tokens.

    JavaScript strings are sequences of UTF-16 code units; they are modelled
    as lists of numbers.  Cursors only count up from 0 and are natural
    numbers; the offsets stored in tokens and nodes are integers (the code
    computes [current - value.length], which is negative for a one-character
    token at offset 0).  Loops are run with fuel, so that a run that never
    leaves a loop is a run that exhausts every amount of fuel; more fuel
    never changes an answer (the [_mono] lemmas). *)

From Stdlib Require Import List NArith ZArith Bool String Ascii Lia.
Import ListNotations.

(* ------------------------------------------------------------------ *)
(** ** JavaScript values used by the code *)

Module JS.

Definition codeunit := N.
Definition jsstring := list codeunit.

(** A string literal of the source, as code units. *)
Definition lit (s : string) : jsstring :=
  List.map N_of_ascii (list_ascii_of_string s).

Definition NL : codeunit := 10%N.     (* line feed *)
Definition DQUOTE : codeunit := 34%N. (* double quote *)
Definition SQUOTE : codeunit := 39%N. (* single quote *)
Definition SLASH : codeunit := 47%N.  (* slash *)

(** [s[i]]: the code unit at index [i], or [undefined] past the end. *)
Definition char_at (s : jsstring) (i : nat) : option codeunit := nth_error s i.
Arguments char_at : simpl never.

(** [ToString] of a value that is a one-character string or [undefined];
    it is what [value += char] appends and what [RegExp.prototype.test]
    examines. *)
Definition to_str (char : option codeunit) : jsstring :=
  match char with
  | Some c => [c]
  | None => lit "undefined"
  end.

Definition str_eqb (a b : jsstring) : bool :=
  if list_eq_dec N.eq_dec a b then true else false.

(** [a === b] on values that are a one-character string or [undefined]. *)
Definition char_eqb (a b : option codeunit) : bool :=
  match a, b with
  | Some x, Some y => N.eqb x y
  | None, None => true
  | _, _ => false
  end.

(** [list.includes(s)] for an array of strings. *)
Definition includes (l : list jsstring) (s : jsstring) : bool :=
  existsb (str_eqb s) l.

(** [/[class]/.test(v)]: an unanchored one-class pattern matches when some
    code unit of [ToString(v)] is in the class. *)
Definition regex_test (class : codeunit -> bool) (v : option codeunit) : bool :=
  existsb class (to_str v).

Definition in_range (lo hi c : codeunit) : bool :=
  (N.leb lo c && N.leb c hi)%bool.

(** [[0-9]] *)
Definition digit (c : codeunit) : bool := in_range 48%N 57%N c.
(** [[a-zA-Z]] *)
Definition alpha (c : codeunit) : bool :=
  in_range 97%N 122%N c || in_range 65%N 90%N c.
(** [[a-zA-Z0-9]] *)
Definition alnum (c : codeunit) : bool := alpha c || digit c.
(** [[a-zA-Z_]] *)
Definition alpha_ (c : codeunit) : bool := alpha c || N.eqb c 95%N.
(** [[a-zA-Z0-9_]] *)
Definition alnum_ (c : codeunit) : bool := alnum c || N.eqb c 95%N.
(** [\s]: the ECMAScript WhiteSpace and LineTerminator code points. *)
Definition space (c : codeunit) : bool :=
  existsb (N.eqb c)
    [9; 10; 11; 12; 13; 32; 160; 5760; 8232; 8233; 8239; 8287; 12288;
     65279]%N
  || in_range 8192%N 8202%N c.

(** What a call yields: a value, a thrown exception, or no answer within
    the fuel given. *)
Inductive exn :=
| TypeError (message : jsstring)       (* throw new TypeError(message) *)
| UndefinedRead (property : jsstring). (* property read on undefined *)

Inductive result (A : Type) :=
| Ok (a : A)
| Throw (e : exn)
| OutOfFuel.
Arguments Ok {A} a.
Arguments Throw {A} e.
Arguments OutOfFuel {A}.

Definition bind {A B} (r : result A) (k : A -> result B) : result B :=
  match r with
  | Ok a => k a
  | Throw e => Throw e
  | OutOfFuel => OutOfFuel
  end.

(** The loop shared by the comment, number, string and identifier rules:
    [while (cond(char)) { value += char; char = code[++current]; }].
    It yields the final [value] and [current].  Strings have no maximal
    length here: where the condition never fails the loop is [OutOfFuel]
    at every fuel, while an engine ends such a run with a [RangeError]
    once [value] passes its limit on the length of a string. *)
Fixpoint scan_while (cond : option codeunit -> bool) (fuel : nat)
    (code : jsstring) (value : jsstring) (char : option codeunit)
    (current : nat) : result (jsstring * nat) :=
  match fuel with
  | O => OutOfFuel
  | S fuel' =>
      if cond char
      then scan_while cond fuel' code (value ++ to_str char)
             (char_at code (S current)) (S current)
      else Ok (value, current)
  end.

(** Tokens that follow one another: the first satisfies [ok from], each
    next one [ok (next t)] for the token [t] before it, and [upto] is what
    the last one leaves. *)
Fixpoint chain {T S : Type} (ok : S -> T -> Prop) (next : T -> S)
    (from : S) (toks : list T) (upto : S) : Prop :=
  match toks with
  | [] => from = upto
  | t :: ts => ok from t /\ chain ok next (next t) ts upto
  end.

(** [r] is [r'] or has run out of fuel: the order in which results grow
    with the fuel. *)
Definition fuel_le {A} (r r' : result A) : Prop :=
  r = OutOfFuel \/ r = r'.

End JS.

Import JS.

Notation "x <- r ;; k" := (bind r (fun x => k))
  (at level 61, r at next level, right associativity).

(* ------------------------------------------------------------------ *)
(** ** The lexer of src/parser.js *)

Module LexA.

Inductive token_type :=
| KEYWORD | IDENTIFIER | NUMBER | STRING | OPERATOR
| PUNCTUATION | WHITESPACE | COMMENT | NEWLINE.

Definition token_type_eqb (a b : token_type) : bool :=
  match a, b with
  | KEYWORD, KEYWORD | IDENTIFIER, IDENTIFIER | NUMBER, NUMBER
  | STRING, STRING | OPERATOR, OPERATOR | PUNCTUATION, PUNCTUATION
  | WHITESPACE, WHITESPACE | COMMENT, COMMENT | NEWLINE, NEWLINE => true
  | _, _ => false
  end.

Record token := mkToken {
  type : token_type;
  value : jsstring;
  line : Z;
  start : Z;
  end_ : Z
}.

Definition KEYWORDS : list jsstring :=
  List.map lit ["const"; "let"; "var"; "function"; "return"; "if"; "else";
                "for"; "while"; "switch"; "async"; "await"]%string.
Definition OPERATORS : list jsstring :=
  List.map lit ["+"; "-"; "*"; "/"; "="; "=="; "!="; "<"; ">"; ">="; "<=";
                "&&"; "||"; "!"; "+="; "-="; "?"; "..."]%string.
Definition PUNCTUATIONS : list jsstring :=
  List.map lit ["("; ")"; "{"; "}"; ";"; ","; "."; "["; "]"]%string.

(** The variables of [tokenize]. *)
Record state := mkState {
  tokens : list token;
  current : nat;
  cur_line : Z;
  column : Z
}.

(** [createToken]: the closure reads [line] and [current] when called. *)
Definition createToken (line : Z) (current : nat) (ty : token_type)
    (value : jsstring) : token :=
  {| type := ty; value := value; line := line;
     start := Z.of_nat current - Z.of_nat (List.length value);
     end_ := Z.of_nat current |}.

(** One pass through the body of the [while (current < code.length)] loop,
    up to its [continue] (or [throw]). *)
Definition iteration (fuel : nat) (code : jsstring) (st : state)
  : result state :=
  let current := current st in
  let char := char_at code current in
  if char_eqb char (Some NL) then
    let line := (cur_line st + 1)%Z in
    Ok {| tokens := tokens st ++
            [ {| type := NEWLINE; value := to_str char; line := line;
                 start := Z.of_nat current;
                 end_ := Z.of_nat current + 1 |} ];
          current := S current; cur_line := line; column := 0 |}
  else
    let line := cur_line st in
    let column := (column st + 1)%Z in
    let push tok cur :=
      {| tokens := tokens st ++ [tok]; current := cur;
         cur_line := line; column := column |} in
    if regex_test space char && negb (char_eqb char (Some NL)) then
      Ok (push (createToken line current WHITESPACE (to_str char))
            (S current))
    else if char_eqb char (Some SLASH)
            && char_eqb (char_at code (current + 1)) (Some SLASH) then
      r <- scan_while (fun ch => negb (char_eqb ch (Some NL)))
             fuel code [] char current ;;
      let '(value, current) := r in
      Ok (push (createToken line current COMMENT value) current)
    else if regex_test digit char then
      r <- scan_while (regex_test digit) fuel code [] char current ;;
      let '(value, current) := r in
      Ok (push (createToken line current NUMBER value) current)
    else if char_eqb char (Some DQUOTE) || char_eqb char (Some SQUOTE) then
      let quoteType := char in
      let current := S current in
      let char := char_at code current in
      r <- scan_while (fun ch => negb (char_eqb ch quoteType))
             fuel code [] char current ;;
      let '(value, current) := r in
      let value := value ++ to_str quoteType in
      Ok (push (createToken line current STRING value) (S current))
    else if regex_test alpha char then
      r <- scan_while (regex_test alnum) fuel code [] char current ;;
      let '(value, current) := r in
      if includes KEYWORDS value
      then Ok (push (createToken line current KEYWORD value) current)
      else Ok (push (createToken line current IDENTIFIER value) current)
    else if includes OPERATORS (to_str char) then
      let value := to_str char in
      let current := S current in
      let char := char_at code current in
      if includes OPERATORS (value ++ to_str char) then
        let value := value ++ to_str char in
        let current := S current in
        Ok (push (createToken line current OPERATOR value) current)
      else
        Ok (push (createToken line current OPERATOR value) current)
    else if includes PUNCTUATIONS (to_str char) then
      Ok (push (createToken line current PUNCTUATION (to_str char))
            (S current))
    else
      Throw (TypeError (lit "Unexpected character: " ++ to_str char)).

Fixpoint tokenize_loop (fuel : nat) (code : jsstring) (st : state)
  : result (list token) :=
  match fuel with
  | O => OutOfFuel
  | S fuel' =>
      if current st <? List.length code then
        st' <- iteration fuel' code st ;;
        tokenize_loop fuel' code st'
      else Ok (tokens st)
  end.

Definition tokenize (fuel : nat) (code : jsstring) : result (list token) :=
  tokenize_loop fuel code
    {| tokens := []; current := 0; cur_line := 1; column := 0 |}.

(** The text a token sequence spells: the values in order. *)
Definition text (toks : list token) : jsstring :=
  List.concat (List.map value toks).

(** A token whose span is as long as its value. *)
Definition well_formed (t : token) : Prop :=
  (end_ t - start t)%Z = Z.of_nat (List.length (value t)).

(** What each rule of [iteration] puts in a token of its type. *)
Definition kind_ok (t : token) : bool :=
  match type t, value t with
  | NEWLINE, [c] => N.eqb c NL
  | WHITESPACE, [c] => space c && negb (N.eqb c NL)
  | COMMENT, c1 :: c2 :: rest =>
      N.eqb c1 SLASH && N.eqb c2 SLASH
      && forallb (fun c => negb (N.eqb c NL)) rest
  | NUMBER, c :: rest => forallb digit (c :: rest)
  | STRING, c :: rest =>
      let q := last (c :: rest) c in
      (N.eqb q DQUOTE || N.eqb q SQUOTE)
      && forallb (fun d => negb (N.eqb d q)) (removelast (c :: rest))
  | KEYWORD, v => includes KEYWORDS v
  | IDENTIFIER, c :: rest =>
      alpha c && forallb alnum rest && negb (includes KEYWORDS (c :: rest))
  | OPERATOR, [c] => includes OPERATORS [c]
  | OPERATOR, [c; d] => includes OPERATORS [c] && includes OPERATORS [c; d]
  | PUNCTUATION, [c] => includes PUNCTUATIONS [c]
  | _, _ => false
  end.

(** Where a token lies, given the offset [from] of its first character:
    a whitespace or punctuation token ends there, any other starts there. *)
Definition placed (from : Z) (t : token) : Prop :=
  match type t with
  | WHITESPACE | PUNCTUATION => end_ t = from
  | _ => start t = from
  end.

(** The offset of the first character after a token. *)
Definition after (t : token) : Z :=
  match type t with
  | WHITESPACE | PUNCTUATION | STRING => (end_ t + 1)%Z
  | _ => end_ t
  end.

(** The line of a token, given the line [n] of the token before it. *)
Definition lined (n : Z) (t : token) : Prop :=
  match type t with
  | NEWLINE => line t = (n + 1)%Z
  | _ => line t = n
  end.

(** What the loop of [tokenize] keeps true of its variables. *)
Definition invariant (code : jsstring) (st : state) : Prop :=
  current st <= List.length code
  /\ chain placed after 0%Z (tokens st) (Z.of_nat (current st))
  /\ chain lined line 1%Z (tokens st) (cur_line st)
  /\ forallb kind_ok (tokens st) = true.

(** A source that holds no quote character. *)
Definition quote_free (code : jsstring) : Prop :=
  forall c, In c code -> c <> DQUOTE /\ c <> SQUOTE.

(** The characters on which every rule of [iteration] fails. *)
Definition unmatched (c : codeunit) : bool :=
  negb (N.eqb c NL) && negb (space c) && negb (digit c)
  && negb (N.eqb c DQUOTE) && negb (N.eqb c SQUOTE) && negb (alpha c)
  && negb (includes OPERATORS [c]) && negb (includes PUNCTUATIONS [c]).

End LexA.

(* ------------------------------------------------------------------ *)
(** ** The lexer of src/unnamed/part_000 *)

Module LexB.

Inductive token_type :=
| Newline | Whitespace | Regex | Numeric | Keyword | Identifier | Punctuation.

Record position := mkPosition { line : Z; column : Z }.
Record location := mkLocation { loc_start : position; loc_end : position }.

Record token := mkToken {
  type : token_type;
  value : jsstring;
  range : Z * Z;
  loc : location
}.

Definition keywords : list jsstring :=
  List.map lit ["let"; "const"; "var"; "if"; "else"; "while"; "for";
                "function"; "async"; "await"]%string.

Definition createLoc (startLine startColumn endLine endColumn : Z)
  : location :=
  {| loc_start := {| line := startLine; column := startColumn |};
     loc_end := {| line := endLine; column := endColumn |} |}.

(** The variables of [tokenize]; [stringDelimiter] is never read or
    written and is left out. *)
Record state := mkState {
  tokens : list token;
  current : nat;
  cur_line : Z;
  cur_column : Z;
  insideString : bool;
  insideRegex : bool
}.

Definition addToken (tokens : list token) (ty : token_type)
    (value : jsstring) (start end_ : Z) (loc : location) : list token :=
  tokens ++ [ {| type := ty; value := value; range := (start, end_);
                 loc := loc |} ].

(** The loop of the number and identifier rules:
    [while (current < source.length && cond(source[current]))
       { v += source[current]; current++; column++; }]. *)
Fixpoint run_while (cond : option codeunit -> bool) (fuel : nat)
    (source : jsstring) (v : jsstring) (current : nat) (column : Z)
  : result (jsstring * nat * Z) :=
  match fuel with
  | O => OutOfFuel
  | S fuel' =>
      if (current <? List.length source) && cond (char_at source current)
      then run_while cond fuel' source (v ++ to_str (char_at source current))
             (S current) (column + 1)%Z
      else Ok (v, current, column)
  end.

(** One pass through the body of the [while (current < source.length)]
    loop. *)
Definition iteration (fuel : nat) (source : jsstring) (st : state)
  : result state :=
  let current := current st in
  let line := cur_line st in
  let column := cur_column st in
  let char := char_at source current in
  let tokenStart := Z.of_nat current in
  let startLine := line in
  let startColumn := column in
  if char_eqb char (Some NL)
     && (negb (insideString st) && negb (insideRegex st)) then
    Ok {| tokens := addToken (tokens st) Newline (to_str char)
                      tokenStart (tokenStart + 1)
                      (createLoc startLine startColumn line (column + 1));
          current := S current; cur_line := (line + 1)%Z; cur_column := 0;
          insideString := insideString st; insideRegex := insideRegex st |}
  else if regex_test space char then
    Ok {| tokens := addToken (tokens st) Whitespace (to_str char)
                      tokenStart (tokenStart + 1)
                      (createLoc startLine startColumn line (column + 1));
          current := S current; cur_line := line;
          cur_column := (column + 1)%Z;
          insideString := insideString st; insideRegex := insideRegex st |}
  else if char_eqb char (Some SLASH) && negb (insideString st) then
    Ok {| tokens := addToken (tokens st) Regex (to_str char)
                      tokenStart (tokenStart + 1)
                      (createLoc startLine startColumn line (column + 1));
          current := S current; cur_line := line;
          cur_column := (column + 1)%Z;
          insideString := insideString st;
          insideRegex := negb (insideRegex st) |}
  else if regex_test digit char then
    r <- run_while (regex_test digit) fuel source (to_str char)
           (S current) (column + 1)%Z ;;
    let '(numValue, current, column) := r in
    Ok {| tokens := addToken (tokens st) Numeric numValue
                      tokenStart (Z.of_nat current)
                      (createLoc startLine startColumn line column);
          current := current; cur_line := line; cur_column := column;
          insideString := insideString st; insideRegex := insideRegex st |}
  else if regex_test alpha_ char then
    r <- run_while (regex_test alnum_) fuel source (to_str char)
           (S current) (column + 1)%Z ;;
    let '(idValue, current, column) := r in
    let type := if includes keywords idValue then Keyword else Identifier in
    Ok {| tokens := addToken (tokens st) type idValue
                      tokenStart (Z.of_nat current)
                      (createLoc startLine startColumn line column);
          current := current; cur_line := line; cur_column := column;
          insideString := insideString st; insideRegex := insideRegex st |}
  else
    Ok {| tokens := addToken (tokens st) Punctuation (to_str char)
                      tokenStart (tokenStart + 1)
                      (createLoc startLine startColumn line (column + 1));
          current := S current; cur_line := line;
          cur_column := (column + 1)%Z;
          insideString := insideString st; insideRegex := insideRegex st |}.

Fixpoint tokenize_loop (fuel : nat) (source : jsstring) (st : state)
  : result (list token) :=
  match fuel with
  | O => OutOfFuel
  | S fuel' =>
      if current st <? List.length source then
        st' <- iteration fuel' source st ;;
        tokenize_loop fuel' source st'
      else Ok (tokens st)
  end.

Definition tokenize (fuel : nat) (source : jsstring)
  : result (list token) :=
  tokenize_loop fuel source
    {| tokens := []; current := 0; cur_line := 1; cur_column := 0;
       insideString := false; insideRegex := false |}.

(** The text a token sequence spells: the values in order. *)
Definition text (toks : list token) : jsstring :=
  List.concat (List.map value toks).

(** A token whose range is as long as its value. *)
Definition well_formed (t : token) : Prop :=
  (snd (range t) - fst (range t))%Z = Z.of_nat (List.length (value t)).

(** The characters that reach the last rule of [iteration]. *)
Definition other (c : codeunit) : bool :=
  negb (space c) && negb (N.eqb c SLASH) && negb (digit c)
  && negb (alpha_ c).

(** What each rule of [iteration] puts in a token of its type. *)
Definition kind_ok (t : token) : bool :=
  match type t, value t with
  | Newline, [c] => N.eqb c NL
  | Whitespace, [c] => space c
  | Regex, [c] => N.eqb c SLASH
  | Numeric, c :: rest => forallb digit (c :: rest)
  | Keyword, v => includes keywords v
  | Identifier, c :: rest =>
      alpha_ c && forallb alnum_ rest && negb (includes keywords (c :: rest))
  | Punctuation, [c] => other c
  | _, _ => false
  end.

(** A token that starts at the offset [from]. *)
Definition starts_at (from : Z) (t : token) : Prop := fst (range t) = from.

(** A token that starts at the position [from], stays on its line and is
    as many columns wide as its value is long. *)
Definition located (from : position) (t : token) : Prop :=
  loc_start (loc t) = from
  /\ line (loc_end (loc t)) = line from
  /\ column (loc_end (loc t))
     = (column from + Z.of_nat (List.length (value t)))%Z.

(** The position after a token: the start of the next line after a
    Newline token, the end of the token after any other. *)
Definition position_after (t : token) : position :=
  match type t with
  | Newline => {| line := (line (loc_end (loc t)) + 1)%Z; column := 0 |}
  | _ => loc_end (loc t)
  end.

(** The position the lexer has reached. *)
Definition position_of (st : state) : position :=
  {| line := cur_line st; column := cur_column st |}.

(** Whether the lexer is inside a regex after the tokens [toks], having
    been [inside] before them: every Regex token toggles it. *)
Definition regex_after (inside : bool) (toks : list token) : bool :=
  fold_left (fun b t => match type t with Regex => negb b | _ => b end)
    toks inside.

(** A newline character is a Newline token outside a regex and a
    Whitespace token inside one. *)
Definition newlines_ok (toks : list token) : Prop :=
  forall pre t post,
    toks = pre ++ t :: post -> value t = [NL] ->
    type t = if regex_after false pre then Whitespace else Newline.

(** What the loop of [tokenize] keeps true of its variables. *)
Definition invariant (source : jsstring) (st : state) : Prop :=
  current st <= List.length source
  /\ insideString st = false
  /\ chain starts_at (fun t => snd (range t)) 0%Z (tokens st)
       (Z.of_nat (current st))
  /\ chain located position_after {| line := 1; column := 0 |} (tokens st)
       (position_of st)
  /\ forallb kind_ok (tokens st) = true
  /\ regex_after false (tokens st) = insideRegex st
  /\ newlines_ok (tokens st).

End LexB.

(* ------------------------------------------------------------------ *)
(** ** The parser of src/parser.js (the [walk] variant) *)

Module ParseA.

(** The [line], [start] and [end] fields every positioned node carries. *)
Record span := mkSpan { line : Z; start : Z; end_ : Z }.

(** What [line: token.line, start: token.start, end: token.end] copies. *)
Definition span_of (token : LexA.token) : span :=
  {| line := LexA.line token; start := LexA.start token;
     end_ := LexA.end_ token |}.

(** AST nodes.  A child that the code may leave [null] is an [option].
    [declarations] is the array of [VariableDeclarator] objects, each a
    pair [(id, init)]; the [body] of a [FunctionDeclaration] is the array
    inside its position-less [{type: 'BlockStatement', body}] object. *)
#[warnings="-register-all"]
Inductive node :=
| Literal (value : jsstring) (s : span)
| Identifier (value : jsstring) (s : span)
| BinaryExpression (operator : jsstring) (left right : node) (s : span)
| ReturnStatement (argument : option node) (s : span)
| VariableDeclaration (declarations : list (option node * option node))
    (kind : jsstring) (s : span)
| FunctionDeclaration (id : option node) (params : list (option node))
    (body : list (option node)) (s : span)
| BlockStatement (body : list (option node)) (s : span).

(** The [Program] object. *)
Record program := mkProgram {
  body : list node;
  prog_span : span
}.

Definition skipTokens : list LexA.token_type :=
  [LexA.WHITESPACE; LexA.NEWLINE; LexA.COMMENT].
Definition variableKeywords : list jsstring :=
  List.map lit ["const"; "let"; "var"]%string.
Definition skipPunctuation : list jsstring :=
  List.map lit [";"; ","; "("; ")"]%string.

(** [skipTokens.includes(token.type)] *)
Definition skippable (token : LexA.token) : bool :=
  existsb (LexA.token_type_eqb (LexA.type token)) skipTokens.

(** [token.type === ty && token.value === v] *)
Definition is_tok (ty : LexA.token_type) (v : string) (token : LexA.token)
  : bool :=
  LexA.token_type_eqb (LexA.type token) ty
  && str_eqb (LexA.value token) (lit v).

Section Walk.

Variable tokens : list LexA.token.

(** [tokens[current]] followed by a property read, which throws when the
    index is past the end. *)
Definition read (property : string) (current : nat) : result LexA.token :=
  match nth_error tokens current with
  | Some t => Ok t
  | None => Throw (UndefinedRead (lit property))
  end.

(** [current < tokens.length && tokens[current].type === ty
     && tokens[current].value === v] *)
Definition at_is (ty : LexA.token_type) (v : string) (current : nat)
  : bool :=
  (current <? List.length tokens)
  && match nth_error tokens current with
     | Some t => is_tok ty v t
     | None => false
     end.

(** The loop that skips whitespace, newline and comment tokens.  [None]
    in the answer is the [return null] inside the loop. *)
Fixpoint skip_loop (fuel : nat) (token : LexA.token) (current : nat)
  : result (option LexA.token * nat) :=
  match fuel with
  | O => OutOfFuel
  | S fuel' =>
      if skippable token then
        let current := S current in
        if List.length tokens <=? current then Ok (None, current)
        else
          token <- read "type" current ;;
          skip_loop fuel' token current
      else Ok (Some token, current)
  end.

(** The parameter loop of a function declaration. *)
Fixpoint params_loop (walk : nat -> result (option node * nat))
    (fuel : nat) (params : list (option node)) (current : nat)
  : result (list (option node) * nat) :=
  match fuel with
  | O => OutOfFuel
  | S fuel' =>
      t <- read "type" current ;;
      if negb (is_tok LexA.PUNCTUATION ")" t) then
        w <- walk current ;;
        let '(n, current) := w in
        let params := params ++ [n] in
        t <- read "type" current ;;
        let current :=
          if is_tok LexA.PUNCTUATION "," t then S current else current in
        params_loop walk fuel' params current
      else Ok (params, current)
  end.

(** The body loop of a function declaration and of a block statement.
    It yields the body and the last value assigned to [token]; [None] is
    the [return null] inside the loop. *)
Fixpoint body_loop (walk : nat -> result (option node * nat))
    (fuel : nat) (body : list (option node)) (token : LexA.token)
    (current : nat)
  : result (option (list (option node) * LexA.token) * nat) :=
  match fuel with
  | O => OutOfFuel
  | S fuel' =>
      t <- read "type" current ;;
      if negb (is_tok LexA.PUNCTUATION "}" t) then
        w <- walk current ;;
        let '(n, current) := w in
        let body := body ++ [n] in
        if List.length tokens <=? current then Ok (None, current)
        else
          token <- read "type" current ;;
          body_loop walk fuel' body token current
      else Ok (Some (body, token), current)
  end.

(** The part of [walk] after the skip loop: the rules tried in turn on
    [token], the token at [current]; [walk] stands for the recursive
    calls. *)
Definition walk_token (walk : nat -> result (option node * nat))
    (fuel : nat) (token : LexA.token) (current : nat)
  : result (option node * nat) :=
  let createNode (mk : jsstring -> span -> node) value :=
    mk value (span_of token) in
  match LexA.type token with
  | LexA.NUMBER =>
      Ok (Some (createNode Literal (LexA.value token)), S current)
  | LexA.STRING =>
      Ok (Some (createNode Literal (LexA.value token)), S current)
  | LexA.IDENTIFIER =>
      Ok (Some (createNode Identifier (LexA.value token)), S current)
  | LexA.OPERATOR =>
      let operator := LexA.value token in
      let current := S current in
      l <- walk current ;;
      let '(left_, current) := l in
      r <- walk current ;;
      let '(right_, current) := r in
      match left_, right_ with
      | Some left_, Some right_ =>
          Ok (Some (BinaryExpression operator left_ right_
                      (span_of token)), current)
      | _, _ => Ok (None, current)
      end
  | _ =>
    if is_tok LexA.KEYWORD "return" token then
      let current := S current in
      a <- walk current ;;
      let '(argument, current) := a in
      let current :=
        if at_is LexA.PUNCTUATION ";" current then S current
        else current in
      Ok (Some (ReturnStatement argument (span_of token)), current)
    else if is_tok LexA.KEYWORD "const" token then
      let current := S current in
      i <- walk current ;;
      let '(id, current) := i in
      r <- (if at_is LexA.OPERATOR "=" current
            then walk (S current)
            else Ok (None, current)) ;;
      let '(init, current) := r in
      let current :=
        if at_is LexA.PUNCTUATION ";" current then S current
        else current in
      Ok (Some (VariableDeclaration [(id, init)] (lit "const")
                  (span_of token)), current)
    else if is_tok LexA.KEYWORD "function" token then
      let current := S current in
      i <- walk current ;;
      let '(id, current) := i in
      let current := S current in
      p <- params_loop walk fuel [] current ;;
      let '(params, current) := p in
      let current := S current in
      let current := S current in
      b <- body_loop walk fuel [] token current ;;
      match b with
      | (None, current) => Ok (None, current)
      | (Some (body, token), current) =>
          Ok (Some (FunctionDeclaration id params body
                      (span_of token)), S current)
      end
    else if is_tok LexA.PUNCTUATION "{" token then
      let current := S current in
      b <- body_loop walk fuel [] token current ;;
      match b with
      | (None, current) => Ok (None, current)
      | (Some (body, token), current) =>
          Ok (Some (BlockStatement body (span_of token)), S current)
      end
    else if LexA.token_type_eqb (LexA.type token) LexA.PUNCTUATION
            && includes skipPunctuation (LexA.value token) then
      Ok (None, S current)
    else Ok (None, current)
  end.

(** [walk], with the cursor [current] passed in and out. *)
Fixpoint walk (fuel : nat) (current : nat) : result (option node * nat) :=
  match fuel with
  | O => OutOfFuel
  | S fuel' =>
    if List.length tokens <=? current then Ok (None, current)
    else
      token <- read "type" current ;;
      r <- skip_loop fuel' token current ;;
      match r with
      | (None, current) => Ok (None, current)
      | (Some token, current) =>
          walk_token (walk fuel') fuel' token current
      end
  end.

(** The top-level loop: [while (current < tokens.length)]. *)
Fixpoint parse_loop (fuel : nat) (body : list node) (current : nat)
  : result (list node) :=
  match fuel with
  | O => OutOfFuel
  | S fuel' =>
      if current <? List.length tokens then
        w <- walk fuel' current ;;
        let '(node, current) := w in
        parse_loop fuel'
          (match node with Some n => body ++ [n] | None => body end)
          current
      else Ok body
  end.

Definition parse (fuel : nat) : result program :=
  first <- read "line" 0 ;;
  last <- read "end" (List.length tokens - 1) ;;
  body <- parse_loop fuel [] 0 ;;
  Ok {| body := body;
        prog_span := {| line := LexA.line first; start := LexA.start first;
                        end_ := LexA.end_ last |} |}.

End Walk.

(** The token at index [j] exists and is skipped by [walk]. *)
Definition skippable_at (tokens : list LexA.token) (j : nat) : bool :=
  match nth_error tokens j with
  | Some w => skippable w
  | None => false
  end.

(** The tokens that [walk] turns into a leaf node, and the node. *)
Definition operand (token : LexA.token) : bool :=
  match LexA.type token with
  | LexA.NUMBER | LexA.STRING | LexA.IDENTIFIER => true
  | _ => false
  end.

Definition leaf (token : LexA.token) : node :=
  match LexA.type token with
  | LexA.IDENTIFIER => Identifier (LexA.value token) (span_of token)
  | _ => Literal (LexA.value token) (span_of token)
  end.

Definition node_span (n : node) : span :=
  match n with
  | Literal _ s | Identifier _ s | BinaryExpression _ _ _ s
  | ReturnStatement _ s | VariableDeclaration _ _ s
  | FunctionDeclaration _ _ _ s | BlockStatement _ s => s
  end.

(** The tokens on which every rule of [walk] fails, so that the final
    [return null] is reached with the cursor still on them: the keywords
    other than [return], [const] and [function], and the punctuation
    other than the opening brace and the four skipped marks. *)
Definition unhandled (token : LexA.token) : bool :=
  match LexA.type token with
  | LexA.KEYWORD =>
      negb (includes (List.map lit ["return"; "const"; "function"]%string)
              (LexA.value token))
  | LexA.PUNCTUATION =>
      negb (includes (lit "{" :: skipPunctuation) (LexA.value token))
  | _ => false
  end.

(** [t], at index [i], is the first token at or after [current] that
    [walk] does not skip. *)
Definition leading (tokens : list LexA.token) (current i : nat)
    (t : LexA.token) : Prop :=
  current <= i
  /\ nth_error tokens i = Some t
  /\ skippable t = false
  /\ (forall j, current <= j < i -> skippable_at tokens j = true).

(** Spans as the specification reads them: a node built from the tokens
    [first] to [last] starts where token [first] starts and ends where
    token [last] ends. *)
Definition spans_consumed (tokens : list LexA.token) (first last : nat)
    (n : node) : Prop :=
  exists tf tl,
    nth_error tokens first = Some tf /\ nth_error tokens last = Some tl
    /\ start (node_span n) = LexA.start tf
    /\ end_ (node_span n) = LexA.end_ tl.

(** [parse(tokenize(code))] *)
Definition parse_source (fuel : nat) (code : jsstring) : result program :=
  tokens <- LexA.tokenize fuel code ;;
  parse tokens fuel.

End ParseA.

(* ------------------------------------------------------------------ *)
(** ** The second parser of src/parser.js (expression statements) *)

Module ParseB.

(** The string a token's [type] field holds. *)
Definition type_name (ty : LexB.token_type) : jsstring :=
  match ty with
  | LexB.Newline => lit "Newline"
  | LexB.Whitespace => lit "Whitespace"
  | LexB.Regex => lit "Regex"
  | LexB.Numeric => lit "Numeric"
  | LexB.Keyword => lit "Keyword"
  | LexB.Identifier => lit "Identifier"
  | LexB.Punctuation => lit "Punctuation"
  end.

(** [token.type === name] *)
Definition type_is (name : string) (token : LexB.token) : bool :=
  str_eqb (type_name (LexB.type token)) (lit name).

(** An [ExpressionStatement] node. *)
Record statement := mkStatement {
  stmt_tokens : list LexB.token;
  stmt_range : Z * Z;
  stmt_loc : LexB.location
}.

(** The [Program] node. *)
Record program := mkProgram {
  body : list statement;
  prog_tokens : list LexB.token;
  prog_range : Z * Z;
  prog_loc : LexB.location
}.

Section Parse.

Variable tokens : list LexB.token.

(** [peek()] followed by a property read. *)
Definition peek (property : string) (current : nat) : result LexB.token :=
  match nth_error tokens current with
  | Some t => Ok t
  | None => Throw (UndefinedRead (lit property))
  end.

(** The loop of [parseExpressionStatement] that collects tokens up to a
    punctuation or [NewLine] token. *)
Fixpoint collect (fuel : nat) (node_tokens : list LexB.token)
    (current : nat) : result (list LexB.token * nat) :=
  match fuel with
  | O => OutOfFuel
  | S fuel' =>
      if current <? List.length tokens then
        t <- peek "type" current ;;
        if negb (type_is "Punctuation" t) && negb (type_is "NewLine" t)
        then collect fuel' (node_tokens ++ [t]) (S current)
        else Ok (node_tokens, current)
      else Ok (node_tokens, current)
  end.

Definition parseExpressionStatement (fuel : nat) (current : nat)
  : result (statement * nat) :=
  startToken <- peek "range" current ;;
  r <- collect fuel [] current ;;
  let '(node_tokens, current) := r in
  let lastToken := nth_error node_tokens (List.length node_tokens - 1) in
  let closing :=
    match lastToken with
    | Some lastToken => lastToken
    | None => startToken
    end in
  Ok ({| stmt_tokens := node_tokens;
         stmt_range := (fst (LexB.range startToken),
                        snd (LexB.range closing));
         stmt_loc :=
           {| LexB.loc_start := LexB.loc_start (LexB.loc startToken);
              LexB.loc_end := LexB.loc_end (LexB.loc closing) |} |},
      current).

(** The top-level loop: [while (current < tokens.length)]. *)
Fixpoint parse_loop (fuel : nat) (body : list statement) (current : nat)
  : result (list statement) :=
  match fuel with
  | O => OutOfFuel
  | S fuel' =>
      if current <? List.length tokens then
        token <- peek "type" current ;;
        if type_is "Whitespace" token || type_is "NewLine" token then
          parse_loop fuel' body (S current)
        else
          r <- parseExpressionStatement fuel' current ;;
          let '(stmt, current) := r in
          let body := body ++ [stmt] in
          if (current <? List.length tokens)
             && match nth_error tokens current with
                | Some t =>
                    str_eqb (LexB.value t) (lit ";") || type_is "NewLine" t
                | None => false
                end
          then parse_loop fuel' body (S current)
          else parse_loop fuel' body current
      else Ok body
  end.

Definition parse (fuel : nat) : result program :=
  let origin := {| LexB.line := 1; LexB.column := 0 |} in
  let first := nth_error tokens 0 in
  let last := nth_error tokens (List.length tokens - 1) in
  body <- parse_loop fuel [] 0 ;;
  Ok {| body := body;
        prog_tokens := tokens;
        prog_range :=
          (match first with Some t => fst (LexB.range t) | None => 0%Z end,
           match last with Some t => snd (LexB.range t) | None => 0%Z end);
        prog_loc :=
          {| LexB.loc_start :=
               match first with
               | Some t => LexB.loc_start (LexB.loc t)
               | None => origin
               end;
             LexB.loc_end :=
               match last with
               | Some t => LexB.loc_end (LexB.loc t)
               | None => origin
               end |} |}.

End Parse.

End ParseB.

(* ------------------------------------------------------------------ *)
(** * Properties *)

(** ** Fuel *)

Lemma fuel_le_refl {A} (r : result A) : fuel_le r r.
Proof. now right. Qed.

Lemma fuel_le_bind {A B} (r r' : result A) (k k' : A -> result B) :
  fuel_le r r' -> (forall a, fuel_le (k a) (k' a)) ->
  fuel_le (bind r k) (bind r' k').
Proof.
  intros [-> | ->] Hk; [now left|].
  destruct r' as [a | e |]; simpl; [apply Hk | now right | now left].
Qed.

Lemma fuel_le_ok {A} (r r' : result A) (a : A) :
  fuel_le r r' -> r = Ok a -> r' = Ok a.
Proof. intros [-> | ->]; [discriminate | trivial]. Qed.

Lemma fuel_le_throw {A} (r r' : result A) (e : exn) :
  fuel_le r r' -> r = Throw e -> r' = Throw e.
Proof. intros [-> | ->]; [discriminate | trivial]. Qed.

Lemma scan_while_mono cond fuel fuel' code value char current :
  fuel <= fuel' ->
  fuel_le (scan_while cond fuel code value char current)
          (scan_while cond fuel' code value char current).
Proof.
  revert fuel' value char current.
  induction fuel as [| fuel IH]; intros fuel' value char current Hle;
    [now left|].
  destruct fuel' as [| fuel']; [lia|]. simpl.
  destruct (cond char); [apply IH; lia | apply fuel_le_refl].
Qed.

(** More fuel never changes an answer of the lexer of src/parser.js. *)
Lemma lexA_iteration_mono fuel fuel' code st :
  fuel <= fuel' ->
  fuel_le (LexA.iteration fuel code st) (LexA.iteration fuel' code st).
Proof.
  intros Hle. unfold LexA.iteration.
  repeat match goal with
         | |- fuel_le (if ?b then _ else _) _ => destruct b
         | |- fuel_le (bind _ _) (bind _ _) =>
             apply fuel_le_bind; [apply scan_while_mono; exact Hle | intros]
         | |- _ => apply fuel_le_refl
         end.
Qed.

Lemma lexA_tokenize_loop_mono fuel fuel' code st :
  fuel <= fuel' ->
  fuel_le (LexA.tokenize_loop fuel code st)
          (LexA.tokenize_loop fuel' code st).
Proof.
  revert fuel' st.
  induction fuel as [| fuel IH]; intros fuel' st Hle; [now left|].
  destruct fuel' as [| fuel']; [lia|]. simpl.
  destruct (LexA.current st <? List.length code); [| apply fuel_le_refl].
  apply fuel_le_bind; [apply lexA_iteration_mono; lia |].
  intros st'. apply IH. lia.
Qed.

Lemma lexA_tokenize_mono fuel fuel' code :
  fuel <= fuel' ->
  fuel_le (LexA.tokenize fuel code) (LexA.tokenize fuel' code).
Proof. apply lexA_tokenize_loop_mono. Qed.

(** ** Token spans (lexer of src/parser.js) *)

Lemma createToken_well_formed line current ty value :
  LexA.well_formed (LexA.createToken line current ty value).
Proof. unfold LexA.well_formed, LexA.createToken; simpl; lia. Qed.

Lemma Forall_snoc {A} (P : A -> Prop) (l : list A) (x : A) :
  Forall P l -> P x -> Forall P (l ++ [x]).
Proof. intros Hl Hx. apply Forall_app; split; [exact Hl | now constructor]. Qed.

Ltac bind_inv H :=
  match type of H with
  | bind ?r _ = Ok _ =>
      let E := fresh "E" in
      destruct r as [[? ?] | ? |] eqn:E; simpl in H; [| discriminate ..]
  end.

Lemma lexA_iteration_well_formed fuel code st st' :
  LexA.iteration fuel code st = Ok st' ->
  Forall LexA.well_formed (LexA.tokens st) ->
  Forall LexA.well_formed (LexA.tokens st').
Proof.
  intros H Hwf. unfold LexA.iteration in H.
  destruct (char_eqb (char_at code (LexA.current st)) (Some NL)) eqn:Hnl.
  - injection H as <-. simpl. apply Forall_snoc; [exact Hwf|].
    destruct (char_at code (LexA.current st)); [| discriminate].
    unfold LexA.well_formed; simpl; lia.
  - repeat match type of H with
           | (if ?b then _ else _) = Ok _ => destruct b
           | bind _ _ = Ok _ => bind_inv H
           end;
      try discriminate; injection H as <-; simpl;
      (apply Forall_snoc; [exact Hwf | apply createToken_well_formed]).
Qed.

Lemma lexA_tokenize_loop_well_formed fuel code st toks :
  LexA.tokenize_loop fuel code st = Ok toks ->
  Forall LexA.well_formed (LexA.tokens st) ->
  Forall LexA.well_formed toks.
Proof.
  revert st. induction fuel as [| fuel IH]; intros st H Hwf;
    [discriminate|].
  simpl in H. destruct (LexA.current st <? List.length code).
  - destruct (LexA.iteration fuel code st) as [st' | e |] eqn:E;
      simpl in H; try discriminate.
    apply (IH st' H). exact (lexA_iteration_well_formed _ _ _ _ E Hwf).
  - now injection H as <-.
Qed.

(** ** The lexer of src/unnamed/part_000: spans, text and totality *)

Lemma firstn_succ {A} (l : list A) (n : nat) (x : A) :
  nth_error l n = Some x -> firstn (S n) l = firstn n l ++ [x].
Proof.
  revert n. induction l as [| y l IH]; intros [| n] H; simpl in *;
    try discriminate.
  - now injection H as ->.
  - f_equal. now apply IH.
Qed.

Lemma char_at_lt (s : jsstring) (i : nat) :
  i < List.length s -> exists c, char_at s i = Some c.
Proof.
  intros H. unfold char_at.
  destruct (nth_error s i) as [c |] eqn:E; [now exists c|].
  apply nth_error_None in E. lia.
Qed.

Lemma text_snoc (toks : list LexB.token) (t : LexB.token) :
  LexB.text (toks ++ [t]) = LexB.text toks ++ LexB.value t.
Proof.
  unfold LexB.text. rewrite map_app, concat_app. simpl.
  now rewrite app_nil_r.
Qed.

Section RunWhile.

Variable cond : option codeunit -> bool.
Variable source : jsstring.

Lemma run_while_length fuel v cur col v' cur' col' :
  LexB.run_while cond fuel source v cur col = Ok (v', cur', col') ->
  List.length v' + cur = List.length v + cur'.
Proof.
  revert v cur col. induction fuel as [| fuel IH]; intros v cur col H;
    [discriminate|].
  simpl in H.
  destruct (cur <? List.length source) eqn:Hlt; simpl in H.
  - apply Nat.ltb_lt in Hlt. destruct (char_at_lt _ _ Hlt) as [c Hc].
    rewrite Hc in H. destruct (cond (Some c)).
    + apply IH in H. rewrite length_app in H. simpl in H. lia.
    + injection H as <- <- <-. lia.
  - injection H as <- <- <-. lia.
Qed.

Lemma run_while_bounds fuel v cur col v' cur' col' :
  LexB.run_while cond fuel source v cur col = Ok (v', cur', col') ->
  cur <= List.length source ->
  cur <= cur' <= List.length source.
Proof.
  revert v cur col. induction fuel as [| fuel IH]; intros v cur col H Hle;
    [discriminate|].
  simpl in H.
  destruct (cur <? List.length source) eqn:Hlt; simpl in H.
  - apply Nat.ltb_lt in Hlt.
    destruct (cond (char_at source cur)).
    + apply IH in H; lia.
    + injection H as <- <- <-. lia.
  - injection H as <- <- <-. lia.
Qed.

Lemma run_while_text fuel pre v cur col v' cur' col' :
  LexB.run_while cond fuel source v cur col = Ok (v', cur', col') ->
  pre ++ v = firstn cur source ->
  pre ++ v' = firstn cur' source.
Proof.
  revert v cur col. induction fuel as [| fuel IH]; intros v cur col H Hpre;
    [discriminate|].
  simpl in H.
  destruct (cur <? List.length source) eqn:Hlt; simpl in H.
  - apply Nat.ltb_lt in Hlt. destruct (char_at_lt _ _ Hlt) as [c Hc].
    rewrite Hc in H. destruct (cond (Some c)).
    + apply IH in H; [exact H|].
      rewrite (firstn_succ _ _ _ Hc), <- Hpre. simpl.
      now rewrite app_assoc.
    + now injection H as <- <- <-.
  - now injection H as <- <- <-.
Qed.

Lemma run_while_total fuel v cur col :
  List.length source - cur < fuel ->
  exists r, LexB.run_while cond fuel source v cur col = Ok r.
Proof.
  revert v cur col. induction fuel as [| fuel IH]; intros v cur col Hf;
    [lia|].
  simpl.
  destruct (cur <? List.length source) eqn:Hlt; simpl.
  - apply Nat.ltb_lt in Hlt.
    destruct (cond (char_at source cur)); [apply IH; lia | eauto].
  - eauto.
Qed.

End RunWhile.

(** What one pass of the loop of part_000 preserves and how far it moves. *)
Lemma lexB_iteration_inv fuel source st st' :
  LexB.current st < List.length source ->
  LexB.iteration fuel source st = Ok st' ->
  LexB.current st < LexB.current st' <= List.length source
  /\ (LexB.text (LexB.tokens st) = firstn (LexB.current st) source ->
      LexB.text (LexB.tokens st') = firstn (LexB.current st') source)
  /\ (Forall LexB.well_formed (LexB.tokens st) ->
      Forall LexB.well_formed (LexB.tokens st')).
Proof.
  intros Hlt H. destruct (char_at_lt _ _ Hlt) as [c Hc].
  unfold LexB.iteration in H. rewrite Hc in H.
  assert (Hone : forall ty l,
    let t := {| LexB.type := ty; LexB.value := to_str (Some c);
                LexB.range := (Z.of_nat (LexB.current st),
                               (Z.of_nat (LexB.current st) + 1)%Z);
                LexB.loc := l |} in
    (LexB.text (LexB.tokens st) = firstn (LexB.current st) source ->
     LexB.text (LexB.tokens st ++ [t])
       = firstn (S (LexB.current st)) source)
    /\ (Forall LexB.well_formed (LexB.tokens st) ->
        Forall LexB.well_formed (LexB.tokens st ++ [t]))).
  { intros ty l t; split.
    - intros Htext. rewrite text_snoc, Htext. simpl.
      symmetry. now apply firstn_succ.
    - intros Hwf. apply Forall_snoc; [exact Hwf|].
      unfold LexB.well_formed; simpl; lia. }
  assert (Hrun : forall cond ty,
    bind (LexB.run_while cond fuel source (to_str (Some c))
            (S (LexB.current st)) (LexB.cur_column st + 1)%Z)
      (fun r => let '(v, current, column) := r in
         Ok {| LexB.tokens :=
                 LexB.addToken (LexB.tokens st) (ty v) v
                   (Z.of_nat (LexB.current st)) (Z.of_nat current)
                   (LexB.createLoc (LexB.cur_line st) (LexB.cur_column st)
                      (LexB.cur_line st) column);
               LexB.current := current; LexB.cur_line := LexB.cur_line st;
               LexB.cur_column := column;
               LexB.insideString := LexB.insideString st;
               LexB.insideRegex := LexB.insideRegex st |}) = Ok st' ->
    LexB.current st < LexB.current st' <= List.length source
    /\ (LexB.text (LexB.tokens st) = firstn (LexB.current st) source ->
        LexB.text (LexB.tokens st') = firstn (LexB.current st') source)
    /\ (Forall LexB.well_formed (LexB.tokens st) ->
        Forall LexB.well_formed (LexB.tokens st'))).
  { intros cond ty Hb.
    destruct (LexB.run_while cond fuel source (to_str (Some c))
                (S (LexB.current st)) (LexB.cur_column st + 1)%Z)
      as [[[v cur'] col'] | e |] eqn:E; simpl in Hb; try discriminate.
    injection Hb as <-. simpl.
    pose proof (run_while_bounds _ _ _ _ _ _ _ _ _ E ltac:(lia)) as Hb.
    pose proof (run_while_length _ _ _ _ _ _ _ _ _ E) as Hlen. simpl in Hlen.
    split; [lia|]. split.
    - intros Htext. unfold LexB.addToken. rewrite text_snoc, Htext. simpl.
      apply (run_while_text _ _ _ _ _ _ _ _ _ _ E).
      symmetry. now apply firstn_succ.
    - intros Hwf. apply Forall_snoc; [exact Hwf|].
      unfold LexB.well_formed; simpl; lia. }
  repeat match type of H with
         | (if ?b then _ else _) = Ok _ => destruct b
         end;
    try (injection H as <-; simpl; split; [lia | apply Hone]).
  - exact (Hrun _ (fun _ => LexB.Numeric) H).
  - exact (Hrun _ (fun v => if includes LexB.keywords v
                            then LexB.Keyword else LexB.Identifier) H).
Qed.

Lemma lexB_tokenize_loop_inv fuel source st toks :
  LexB.tokenize_loop fuel source st = Ok toks ->
  LexB.current st <= List.length source ->
  (LexB.text (LexB.tokens st) = firstn (LexB.current st) source ->
   LexB.text toks = source)
  /\ (Forall LexB.well_formed (LexB.tokens st) ->
      Forall LexB.well_formed toks).
Proof.
  revert st. induction fuel as [| fuel IH]; intros st H Hle;
    [discriminate|].
  simpl in H. destruct (LexB.current st <? List.length source) eqn:Hlt.
  - apply Nat.ltb_lt in Hlt.
    destruct (LexB.iteration fuel source st) as [st' | e |] eqn:E;
      simpl in H; try discriminate.
    destruct (lexB_iteration_inv _ _ _ _ Hlt E) as (Hcur & Htext & Hwf).
    destruct (IH st' H ltac:(lia)) as (Htext' & Hwf'). auto.
  - apply Nat.ltb_ge in Hlt. injection H as <-. split; [| auto].
    intros ->. apply firstn_all2. lia.
Qed.

Lemma lexB_iteration_total fuel source st :
  LexB.current st < List.length source ->
  List.length source - LexB.current st <= fuel ->
  exists st', LexB.iteration fuel source st = Ok st'.
Proof.
  intros Hlt Hf. unfold LexB.iteration.
  repeat match goal with
         | |- exists _, (if ?b then _ else _) = _ => destruct b
         | |- exists _, Ok _ = _ => eexists; reflexivity
         | |- exists _, bind (LexB.run_while ?c ?f ?s ?v ?n ?k) _ = _ =>
             destruct (run_while_total c s f v n k ltac:(lia))
               as [[[? ?] ?] ->]; simpl
         end.
Qed.

Lemma lexB_tokenize_loop_total fuel source st :
  List.length source - LexB.current st < fuel ->
  exists toks, LexB.tokenize_loop fuel source st = Ok toks.
Proof.
  revert st. induction fuel as [| fuel IH]; intros st Hf; [lia|].
  simpl. destruct (LexB.current st <? List.length source) eqn:Hlt;
    [| eauto].
  apply Nat.ltb_lt in Hlt.
  destruct (lexB_iteration_total fuel source st Hlt ltac:(lia))
    as [st' E].
  rewrite E. simpl. apply IH.
  destruct (lexB_iteration_inv _ _ _ _ Hlt E) as (Hcur & _). lia.
Qed.

(** The lexer of part_000 returns on every source. *)
Lemma lexB_tokenize_total source :
  exists toks,
    LexB.tokenize (S (List.length source)) source = Ok toks.
Proof. apply lexB_tokenize_loop_total. simpl. lia. Qed.

(** The lexer of part_000 is lossless: the values of its tokens spell the
    source. *)
Lemma lexB_tokenize_lossless fuel source toks :
  LexB.tokenize fuel source = Ok toks -> LexB.text toks = source.
Proof.
  intros H. apply (lexB_tokenize_loop_inv _ _ _ _ H); simpl; [lia | trivial].
Qed.

Lemma lexB_tokenize_well_formed fuel source toks :
  LexB.tokenize fuel source = Ok toks -> Forall LexB.well_formed toks.
Proof.
  intros H. apply (lexB_tokenize_loop_inv _ _ _ _ H); simpl; [lia | constructor].
Qed.

(** ** Runs of the lexer of src/parser.js that never return *)

(** A scanning loop whose condition holds on every character from the
    cursor on, the [undefined] read past the end included, exhausts any
    fuel. *)
Lemma scan_while_diverges cond fuel code value current :
  (forall i, current <= i -> cond (char_at code i) = true) ->
  scan_while cond fuel code value (char_at code current) current
  = OutOfFuel.
Proof.
  intros Hcond. revert value current Hcond.
  induction fuel as [| fuel IH]; intros value current Hcond; [reflexivity|].
  simpl. rewrite (Hcond current (Nat.le_refl _)).
  apply IH. intros i Hi. apply Hcond. lia.
Qed.

Lemma char_at_some_lt (s : jsstring) (i : nat) (c : codeunit) :
  char_at s i = Some c -> (i <? List.length s) = true.
Proof.
  intros H. apply Nat.ltb_lt. apply nth_error_Some.
  unfold char_at in H. now rewrite H.
Qed.

(** A [//] comment with no newline after it: the loop of the comment rule
    reads past the end for ever. *)
Lemma lexA_comment_diverges fuel code st :
  char_at code (LexA.current st) = Some SLASH ->
  char_at code (LexA.current st + 1) = Some SLASH ->
  (forall i, LexA.current st <= i -> char_at code i <> Some NL) ->
  LexA.tokenize_loop fuel code st = OutOfFuel.
Proof.
  intros H0 H1 Hnl. destruct fuel as [| fuel]; [reflexivity|].
  simpl. rewrite (char_at_some_lt _ _ _ H0).
  unfold LexA.iteration. rewrite H1, H0. simpl.
  rewrite <- H0, scan_while_diverges; [reflexivity|].
  intros i Hi. specialize (Hnl i Hi).
  destruct (char_at code i) as [c |]; [| reflexivity]. simpl.
  destruct (N.eqb_spec c NL) as [-> | _]; [now elim Hnl | reflexivity].
Qed.

(** An opening quote with no quote of the same kind after it: the loop of
    the string rule reads past the end for ever. *)
Lemma lexA_string_diverges fuel code st q :
  q = DQUOTE \/ q = SQUOTE ->
  char_at code (LexA.current st) = Some q ->
  (forall i, LexA.current st < i -> char_at code i <> Some q) ->
  LexA.tokenize_loop fuel code st = OutOfFuel.
Proof.
  intros Hq H0 Hno. destruct fuel as [| fuel]; [reflexivity|].
  simpl. rewrite (char_at_some_lt _ _ _ H0).
  unfold LexA.iteration. rewrite H0.
  assert (Hdiv : forall v,
    scan_while (fun ch => negb (char_eqb ch (Some q))) fuel code v
      (char_at code (S (LexA.current st))) (S (LexA.current st))
    = OutOfFuel).
  { intros v. apply scan_while_diverges. intros i Hi.
    specialize (Hno i Hi).
    destruct (char_at code i) as [c |]; [| reflexivity]. simpl.
    destruct (N.eqb_spec c q) as [-> | _]; [now elim Hno | reflexivity]. }
  destruct Hq as [-> | ->]; simpl; now rewrite Hdiv.
Qed.

(** An identifier that runs to the end of the source: [undefined] passes
    the test [/[a-zA-Z0-9]/] (its text starts with a letter), so the loop
    of the identifier rule reads past the end for ever. *)
Lemma lexA_trailing_identifier_diverges fuel code st c :
  char_at code (LexA.current st) = Some c ->
  alpha c = true ->
  (forall i ci, LexA.current st <= i -> char_at code i = Some ci ->
                alnum ci = true) ->
  LexA.tokenize_loop fuel code st = OutOfFuel.
Proof.
  intros H0 Hc Hrest. destruct fuel as [| fuel]; [reflexivity|].
  simpl. rewrite (char_at_some_lt _ _ _ H0).
  assert (Hdiv : forall v,
    scan_while (regex_test alnum) fuel code v
      (char_at code (LexA.current st)) (LexA.current st) = OutOfFuel).
  { intros v. apply scan_while_diverges. intros i Hi.
    destruct (char_at code i) as [ci |] eqn:E; [| reflexivity].
    unfold regex_test; simpl. now rewrite (Hrest i ci Hi E). }
  unfold LexA.iteration. rewrite H0 in *.
  assert (Hd : digit c = false).
  { unfold alpha, digit, in_range in *.
    destruct (N.leb_spec 48 c), (N.leb_spec c 57), (N.leb_spec 97 c),
      (N.leb_spec c 122), (N.leb_spec 65 c), (N.leb_spec c 90);
      simpl in *; try reflexivity; try discriminate; lia. }
  assert (Hs : space c = false).
  { unfold alpha, space, in_range in *. simpl.
    destruct (N.leb_spec 97 c), (N.leb_spec c 122), (N.leb_spec 65 c),
      (N.leb_spec c 90); simpl in Hc; try discriminate;
      repeat match goal with
             | |- context [N.eqb c ?k] =>
                 destruct (N.eqb_spec c k); [lia|]
             | |- context [N.leb ?a ?b] => destruct (N.leb_spec a b)
             end; simpl; try reflexivity; lia. }
  assert (Hq : forall k, (k = NL \/ k = SLASH \/ k = DQUOTE \/ k = SQUOTE) ->
                         N.eqb c k = false).
  { intros k Hk. apply N.eqb_neq. intros ->.
    destruct Hk as [-> | [-> | [-> | ->]]]; discriminate. }
  simpl. unfold regex_test. simpl.
  rewrite Hs, Hd, Hc, !Hq by auto. simpl.
  change (fun v : option codeunit => existsb alnum (to_str v))
    with (regex_test alnum).
  now rewrite Hdiv.
Qed.

(** ** The text of the tokens (lexer of src/parser.js) *)

Lemma str_eqb_eq (a b : jsstring) : str_eqb a b = true -> a = b.
Proof.
  unfold str_eqb. destruct (list_eq_dec N.eq_dec a b); [trivial | discriminate].
Qed.

Lemma includes_In (l : list jsstring) (s : jsstring) :
  includes l s = true -> In s l.
Proof.
  unfold includes. intros H. apply existsb_exists in H.
  destruct H as (x & Hin & Heq). apply str_eqb_eq in Heq. now subst.
Qed.

Lemma operator_length (s : jsstring) :
  includes LexA.OPERATORS s = true -> List.length s <= 3.
Proof.
  intros H. apply includes_In in H. simpl in H.
  repeat (destruct H as [<- | H]; [simpl; lia|]). contradiction.
Qed.

Lemma lexA_text_snoc (toks : list LexA.token) (t : LexA.token) :
  LexA.text (toks ++ [t]) = LexA.text toks ++ LexA.value t.
Proof.
  unfold LexA.text. rewrite map_app, concat_app. simpl.
  now rewrite app_nil_r.
Qed.

(** A scanning loop that returns has appended to [value] exactly the
    characters it has moved over, and has stayed inside the source. *)
Lemma scan_while_text cond fuel code : forall pre value char current value' current',
  char = char_at code current ->
  current <= List.length code ->
  scan_while cond fuel code value char current = Ok (value', current') ->
  pre ++ value = firstn current code ->
  current <= current' <= List.length code
  /\ pre ++ value' = firstn current' code.
Proof.
  induction fuel as [| fuel IH];
    intros pre value char current value' current' -> Hle H Hpre;
    [discriminate|].
  simpl in H. destruct (cond (char_at code current)) eqn:Hcond.
  - destruct (char_at code current) as [c |] eqn:Hc.
    + pose proof (char_at_some_lt _ _ _ Hc) as Hlt. apply Nat.ltb_lt in Hlt.
      destruct (IH pre _ _ _ _ _ eq_refl Hlt H) as [Hb Ht].
      * rewrite (firstn_succ _ _ _ Hc), <- Hpre. simpl.
        now rewrite app_assoc.
      * split; [lia | exact Ht].
    + rewrite scan_while_diverges in H; [discriminate|].
      intros i Hi. replace (char_at code i) with (@None codeunit);
        [exact Hcond|].
      symmetry. apply nth_error_None.
      apply nth_error_None in Hc. lia.
  - injection H as <- <-. split; [lia | exact Hpre].
Qed.

Lemma lexA_iteration_text fuel code st st' :
  LexA.quote_free code ->
  LexA.current st < List.length code ->
  LexA.iteration fuel code st = Ok st' ->
  LexA.text (LexA.tokens st) = firstn (LexA.current st) code ->
  LexA.current st' <= List.length code
  /\ LexA.text (LexA.tokens st') = firstn (LexA.current st') code.
Proof.
  intros Hq Hlt H Htext. destruct (char_at_lt _ _ Hlt) as [c Hc].
  assert (Hone : firstn (S (LexA.current st)) code
                 = LexA.text (LexA.tokens st) ++ [c])
    by (rewrite Htext; now apply firstn_succ).
  assert (Hscan : forall cond value current,
    scan_while cond fuel code [] (Some c) (LexA.current st)
    = Ok (value, current) ->
    current <= List.length code
    /\ LexA.text (LexA.tokens st) ++ value = firstn current code).
  { intros cond value current E.
    destruct (scan_while_text cond fuel code (LexA.text (LexA.tokens st))
                [] (Some c) (LexA.current st) value current)
      as [Hb Ht]; auto; [lia | now rewrite app_nil_r | split; [lia | auto]]. }
  destruct (Hq c (nth_error_In _ _ Hc)) as [Hdq Hsq].
  apply N.eqb_neq in Hdq, Hsq.
  unfold LexA.iteration in H. rewrite Hc in H.
  cbn [char_eqb] in H. rewrite Hdq, Hsq in H. cbn [orb] in H.
  repeat match type of H with
         | (if ?b then _ else _) = Ok _ =>
             let E := fresh "E" in destruct b eqn:E
         | bind _ _ = Ok _ => bind_inv H
         | Throw _ = Ok _ => discriminate H
         end;
    try (injection H as <-; cbn [LexA.tokens LexA.current];
         rewrite lexA_text_snoc; cbn [LexA.value LexA.createToken to_str]).
  all: try (split; [lia | now rewrite Hone]).
  all: try (match goal with
            | E : scan_while _ _ _ _ _ _ = Ok _ |- _ =>
                exact (Hscan _ _ _ E)
            end).
  - (* a two-character operator *)
    destruct (char_at code (S (LexA.current st))) as [d |] eqn:Hd.
    + pose proof (char_at_some_lt _ _ _ Hd) as Hlt2.
      apply Nat.ltb_lt in Hlt2. split; [lia|].
      rewrite (firstn_succ _ _ _ Hd), Hone. simpl.
      now rewrite <- app_assoc.
    + match goal with
      | E : includes LexA.OPERATORS _ = true |- _ =>
          apply operator_length in E; simpl in E; lia
      end.
Qed.

(** On a source without quote characters, the values of the tokens that
    the lexer of src/parser.js returns spell the source. *)
Lemma lexA_tokenize_loop_lossless fuel code : forall st toks,
  LexA.quote_free code ->
  LexA.tokenize_loop fuel code st = Ok toks ->
  LexA.current st <= List.length code ->
  LexA.text (LexA.tokens st) = firstn (LexA.current st) code ->
  LexA.text toks = code.
Proof.
  induction fuel as [| fuel IH]; intros st toks Hq H Hle Htext;
    [discriminate|].
  simpl in H. destruct (LexA.current st <? List.length code) eqn:Hlt.
  - apply Nat.ltb_lt in Hlt.
    destruct (LexA.iteration fuel code st) as [st' | e |] eqn:E;
      simpl in H; try discriminate.
    destruct (lexA_iteration_text _ _ _ _ Hq Hlt E Htext) as [Hle' Htext'].
    exact (IH st' toks Hq H Hle' Htext').
  - apply Nat.ltb_ge in Hlt. injection H as <-. rewrite Htext.
    apply firstn_all2. lia.
Qed.

Lemma lexA_tokenize_lossless_without_quotes fuel code toks :
  LexA.quote_free code ->
  LexA.tokenize fuel code = Ok toks ->
  LexA.text toks = code.
Proof.
  intros Hq H.
  apply (lexA_tokenize_loop_lossless fuel code _ toks Hq H); simpl;
    [lia | reflexivity].
Qed.

(** ** Fuel and the parser of src/parser.js *)

Section WalkFuel.

Variable tokens : list LexA.token.

Lemma skip_loop_mono fuel fuel' token current :
  fuel <= fuel' ->
  fuel_le (ParseA.skip_loop tokens fuel token current)
          (ParseA.skip_loop tokens fuel' token current).
Proof.
  revert fuel' token current.
  induction fuel as [| fuel IH]; intros fuel' token current Hle;
    [now left|].
  destruct fuel' as [| fuel']; [lia|]. simpl.
  repeat match goal with
         | |- fuel_le (if ?b then _ else _) _ => destruct b
         | |- fuel_le (bind _ _) (bind _ _) =>
             apply fuel_le_bind; [apply fuel_le_refl | intros]
         | |- _ => apply fuel_le_refl
         end.
  apply IH. lia.
Qed.

Lemma params_loop_mono walk walk' fuel fuel' params current :
  (forall c, fuel_le (walk c) (walk' c)) ->
  fuel <= fuel' ->
  fuel_le (ParseA.params_loop tokens walk fuel params current)
          (ParseA.params_loop tokens walk' fuel' params current).
Proof.
  intros Hw. revert fuel' params current.
  induction fuel as [| fuel IH]; intros fuel' params current Hle;
    [now left|].
  destruct fuel' as [| fuel']; [lia|]. simpl.
  apply fuel_le_bind; [apply fuel_le_refl | intros t].
  destruct (negb (ParseA.is_tok LexA.PUNCTUATION ")" t));
    [| apply fuel_le_refl].
  apply fuel_le_bind; [apply Hw | intros [n c]].
  apply fuel_le_bind; [apply fuel_le_refl | intros t'].
  apply IH. lia.
Qed.

Lemma body_loop_mono walk walk' fuel fuel' body token current :
  (forall c, fuel_le (walk c) (walk' c)) ->
  fuel <= fuel' ->
  fuel_le (ParseA.body_loop tokens walk fuel body token current)
          (ParseA.body_loop tokens walk' fuel' body token current).
Proof.
  intros Hw. revert fuel' body token current.
  induction fuel as [| fuel IH]; intros fuel' body token current Hle;
    [now left|].
  destruct fuel' as [| fuel']; [lia|]. simpl.
  apply fuel_le_bind; [apply fuel_le_refl | intros t].
  destruct (negb (ParseA.is_tok LexA.PUNCTUATION "}" t));
    [| apply fuel_le_refl].
  apply fuel_le_bind; [apply Hw | intros [n c]].
  destruct (List.length tokens <=? c); [apply fuel_le_refl|].
  apply fuel_le_bind; [apply fuel_le_refl | intros t'].
  apply IH. lia.
Qed.

Lemma walk_mono fuel fuel' current :
  fuel <= fuel' ->
  fuel_le (ParseA.walk tokens fuel current)
          (ParseA.walk tokens fuel' current).
Proof.
  revert fuel' current.
  induction fuel as [| fuel IH]; intros fuel' current Hle; [now left|].
  destruct fuel' as [| fuel']; [lia|].
  assert (Hf : fuel <= fuel') by lia.
  assert (Hw : forall c, fuel_le (ParseA.walk tokens fuel c)
                                 (ParseA.walk tokens fuel' c))
    by (intros c; now apply IH).
  simpl.
  destruct (List.length tokens <=? current); [apply fuel_le_refl|].
  apply fuel_le_bind; [apply fuel_le_refl | intros token].
  apply fuel_le_bind; [now apply skip_loop_mono | intros [[t |] c]];
    [| apply fuel_le_refl].
  unfold ParseA.walk_token.
  repeat match goal with
         | |- fuel_le (Ok _) _ => apply fuel_le_refl
         | |- fuel_le (match LexA.type ?t with _ => _ end) _ =>
             destruct (LexA.type t)
         | |- fuel_le (if ?b then _ else _) (if ?b then _ else _) =>
             destruct b
         | |- fuel_le (match ?x with Some _ => _ | None => _ end) _ =>
             destruct x
         | |- fuel_le (bind (ParseA.walk _ _ _) _) _ =>
             apply fuel_le_bind; [apply Hw | intros [? ?]]
         | |- fuel_le (bind (ParseA.params_loop _ _ _ _ _) _) _ =>
             apply fuel_le_bind;
             [now apply params_loop_mono | intros [? ?]]
         | |- fuel_le (bind (ParseA.body_loop _ _ _ _ _ _) _) _ =>
             apply fuel_le_bind;
             [now apply body_loop_mono | intros [[[? ?] |] ?]]
         | |- fuel_le (bind (if ?b then _ else _) _) _ =>
             apply fuel_le_bind;
             [destruct b; [apply Hw | apply fuel_le_refl] | intros [? ?]]
         end.
Qed.

Lemma parse_loop_mono fuel fuel' body current :
  fuel <= fuel' ->
  fuel_le (ParseA.parse_loop tokens fuel body current)
          (ParseA.parse_loop tokens fuel' body current).
Proof.
  revert fuel' body current.
  induction fuel as [| fuel IH]; intros fuel' body current Hle;
    [now left|].
  destruct fuel' as [| fuel']; [lia|]. simpl.
  destruct (current <? List.length tokens); [| apply fuel_le_refl].
  apply fuel_le_bind; [apply walk_mono; lia | intros [n c]].
  apply IH. lia.
Qed.

Lemma parse_mono fuel fuel' :
  fuel <= fuel' ->
  fuel_le (ParseA.parse tokens fuel) (ParseA.parse tokens fuel').
Proof.
  intros Hle. unfold ParseA.parse.
  apply fuel_le_bind; [apply fuel_le_refl | intros first].
  apply fuel_le_bind; [apply fuel_le_refl | intros last].
  apply fuel_le_bind; [now apply parse_loop_mono | intros body].
  apply fuel_le_refl.
Qed.

End WalkFuel.

(** More fuel never changes an answer of [parse(tokenize(code))]. *)
Lemma parse_source_mono fuel fuel' code :
  fuel <= fuel' ->
  fuel_le (ParseA.parse_source fuel code) (ParseA.parse_source fuel' code).
Proof.
  intros Hle. unfold ParseA.parse_source.
  destruct (lexA_tokenize_mono fuel fuel' code Hle) as [-> | ->];
    [now left|].
  apply fuel_le_bind; [apply fuel_le_refl | intros toks].
  now apply parse_mono.
Qed.

(** ** Skipping and the end of the stream *)

Section WalkFacts.

Variable tokens : list LexA.token.

(** Called at the end of the stream, [walk] returns [null]. *)
Lemma walk_at_end fuel current :
  List.length tokens <= current ->
  ParseA.walk tokens (S fuel) current = Ok (None, current).
Proof.
  intros H. simpl. apply Nat.leb_le in H. now rewrite H.
Qed.

Lemma skippable_at_some j :
  ParseA.skippable_at tokens j = true ->
  exists w, nth_error tokens j = Some w /\ ParseA.skippable w = true.
Proof.
  unfold ParseA.skippable_at.
  destruct (nth_error tokens j) as [w |]; [eauto | discriminate].
Qed.

(** The skip loop stops on the first token that is not whitespace,
    newline or comment. *)
Lemma skip_loop_run n : forall fuel w current t,
  nth_error tokens current = Some w ->
  (forall j, current <= j < current + n ->
             ParseA.skippable_at tokens j = true) ->
  nth_error tokens (current + n) = Some t ->
  ParseA.skippable t = false ->
  n < fuel ->
  ParseA.skip_loop tokens fuel w current = Ok (Some t, current + n).
Proof.
  induction n as [| n IH]; intros fuel w current t Hw Hskip Ht Hns Hf;
    (destruct fuel as [| fuel]; [lia|]); simpl.
  - rewrite Nat.add_0_r in *. rewrite Hw in Ht. injection Ht as ->.
    now rewrite Hns.
  - destruct (skippable_at_some current (Hskip current ltac:(lia)))
      as (w' & Hw' & Hs).
    rewrite Hw in Hw'. injection Hw' as <-. rewrite Hs.
    assert (Hlt : S current < List.length tokens).
    { apply nth_error_Some.
      destruct n as [| n].
      - replace (S current) with (current + 1) by lia. now rewrite Ht.
      - destruct (skippable_at_some (S current)
                    (Hskip (S current) ltac:(lia))) as (x & -> & _).
        discriminate. }
    apply Nat.leb_gt in Hlt. rewrite Hlt.
    unfold ParseA.read.
    destruct (nth_error tokens (S current)) as [w1 |] eqn:Hw1.
    + simpl. replace (current + S n) with (S current + n) in * by lia.
      apply IH; auto; [| lia]. intros j Hj. apply Hskip. lia.
    + apply nth_error_None in Hw1. apply Nat.leb_gt in Hlt. lia.
Qed.


(** What the skip loop has done when it hands a token over. *)
Lemma skip_loop_inv fuel : forall w current t i,
  nth_error tokens current = Some w ->
  ParseA.skip_loop tokens fuel w current = Ok (Some t, i) ->
  current <= i
  /\ nth_error tokens i = Some t
  /\ ParseA.skippable t = false
  /\ (forall j, current <= j < i -> ParseA.skippable_at tokens j = true).
Proof.
  induction fuel as [| fuel IH]; intros w current t i Hw H;
    [discriminate|].
  simpl in H. destruct (ParseA.skippable w) eqn:Hs.
  - destruct (List.length tokens <=? S current); [discriminate|].
    unfold ParseA.read in H.
    destruct (nth_error tokens (S current)) as [w1 |] eqn:Hw1;
      [| discriminate].
    simpl in H. destruct (IH _ _ _ _ Hw1 H) as (Hle & Ht & Hns & Hskip).
    repeat split; auto; [lia|].
    intros j Hj. destruct (Nat.eq_dec j current) as [-> | Hne].
    + unfold ParseA.skippable_at. now rewrite Hw.
    + apply Hskip. lia.
  - injection H as <- <-. repeat split; auto. intros j Hj. lia.
Qed.

(** After the skipped tokens, [walk] tries its rules on the first token
    that is not skipped. *)
Lemma walk_skip_to fuel current i t :
  current <= i ->
  (forall j, current <= j < i -> ParseA.skippable_at tokens j = true) ->
  nth_error tokens i = Some t ->
  ParseA.skippable t = false ->
  i - current < fuel ->
  ParseA.walk tokens (S fuel) current
  = ParseA.walk_token tokens (ParseA.walk tokens fuel) fuel t i.
Proof.
  intros Hle Hskip Ht Hns Hf. simpl.
  assert (Hi : i < List.length tokens)
    by (apply nth_error_Some; now rewrite Ht).
  destruct (Nat.leb_spec (List.length tokens) current) as [? | _]; [lia|].
  unfold ParseA.read.
  destruct (nth_error tokens current) as [w |] eqn:Hw;
    [| apply nth_error_None in Hw; lia].
  simpl. replace i with (current + (i - current)) in Ht |- * by lia.
  rewrite (skip_loop_run (i - current) fuel w current t); auto.
  intros j Hj. apply Hskip. lia.
Qed.


Lemma walk_token_operand walk fuel a i :
  ParseA.operand a = true ->
  ParseA.walk_token tokens walk fuel a i = Ok (Some (ParseA.leaf a), S i).
Proof.
  unfold ParseA.operand, ParseA.walk_token, ParseA.leaf.
  destruct (LexA.type a); intros H; try discriminate; reflexivity.
Qed.

End WalkFacts.

Lemma nth_error_middle {A} (l1 l2 : list A) (x : A) :
  nth_error (l1 ++ x :: l2) (List.length l1) = Some x.
Proof.
  rewrite nth_error_app2 by lia. now rewrite Nat.sub_diag.
Qed.


(** ** Truncated constructs in the parser of src/parser.js *)





(** ** Node spans in the parser of src/parser.js *)

Ltac walk_inv H :=
  repeat match type of H with
         | (if ?b then _ else _) = Ok _ =>
             let E := fresh "E" in destruct b eqn:E
         | bind ?r _ = Ok _ =>
             destruct r as [[? ?] | ? |]; cbn [bind] in H
         | match ?x with Some _ => _ | None => _ end = Ok _ => destruct x
         | (let '(_, _) := ?x in _) = Ok _ => destruct x
         | Throw _ = Ok _ => discriminate H
         | OutOfFuel = Ok _ => discriminate H
         | Ok (None, _) = Ok (Some _, _) => discriminate H
         end.

(** Where the spans of nodes come from: every node [walk] returns is built
    on its leading token, the first token at or after the cursor that is
    not skipped.  For a [Literal] or an [Identifier] that token is the only
    one consumed, so the node spans exactly what it was built from; a
    [BinaryExpression], a [ReturnStatement] and a [VariableDeclaration]
    copy the span of their leading token (the operator or the keyword),
    whatever they consume after it. *)
Lemma walk_span_is_leading_token :
  forall (tokens : list LexA.token) (fuel current : nat)
         (n : ParseA.node) (current' : nat),
    ParseA.walk tokens fuel current = Ok (Some n, current') ->
    exists i t,
      ParseA.leading tokens current i t
      /\ match n with
         | ParseA.Literal v s | ParseA.Identifier v s =>
             s = ParseA.span_of t /\ v = LexA.value t /\ current' = S i
             /\ ParseA.spans_consumed tokens i i n
         | ParseA.BinaryExpression o _ _ s =>
             s = ParseA.span_of t /\ o = LexA.value t
             /\ LexA.type t = LexA.OPERATOR
         | ParseA.ReturnStatement _ s =>
             s = ParseA.span_of t
             /\ ParseA.is_tok LexA.KEYWORD "return" t = true
         | ParseA.VariableDeclaration _ _ s =>
             s = ParseA.span_of t
             /\ ParseA.is_tok LexA.KEYWORD "const" t = true
         | ParseA.FunctionDeclaration _ _ _ _ =>
             ParseA.is_tok LexA.KEYWORD "function" t = true
         | ParseA.BlockStatement _ _ =>
             ParseA.is_tok LexA.PUNCTUATION "{" t = true
         end.
Proof.
  intros tokens fuel current n current' H.
  destruct fuel as [| fuel]; [discriminate|]. simpl in H.
  destruct (List.length tokens <=? current); [discriminate|].
  unfold ParseA.read in H.
  destruct (nth_error tokens current) as [w |] eqn:Hw; [| discriminate].
  cbn [bind] in H.
  destruct (ParseA.skip_loop tokens fuel w current)
    as [[[t |] i] | e |] eqn:Hskip; cbn [bind] in H; try discriminate.
  destruct (skip_loop_inv tokens fuel w current t i Hw Hskip)
    as (Hle & Ht & Hns & Hrun).
  exists i, t. split; [now repeat split|].
  unfold ParseA.walk_token in H.
  destruct (LexA.type t) eqn:Hty; walk_inv H;
    injection H as <- <-; repeat split; auto.
  all: exists t, t; simpl; auto.
Qed.

(** ** Runs of the parser of src/parser.js that never return *)

Lemma fuel_le_defined {A} (r r' : result A) :
  fuel_le r r' -> r <> OutOfFuel -> r' = r.
Proof. intros [-> | ->]; [now intros [] | trivial]. Qed.

Lemma includes_cons l s x :
  includes (x :: l) s = str_eqb s x || includes l s.
Proof. reflexivity. Qed.

(** On a token no rule handles, [walk] returns [null] and leaves the
    cursor where it was. *)
Lemma walk_unhandled tokens fuel current t :
  nth_error tokens current = Some t ->
  ParseA.unhandled t = true ->
  fuel_le (ParseA.walk tokens fuel current) (Ok (None, current)).
Proof.
  intros Ht Hun.
  destruct fuel as [| [| fuel]]; [now left | |].
  - left. simpl.
    assert (Hlt : current < List.length tokens)
      by (apply nth_error_Some; now rewrite Ht).
    apply Nat.leb_gt in Hlt. rewrite Hlt.
    unfold ParseA.read. now rewrite Ht.
  - right.
    assert (Hns : ParseA.skippable t = false).
    { unfold ParseA.unhandled, ParseA.skippable in *.
      destruct (LexA.type t); try discriminate; reflexivity. }
    rewrite (walk_skip_to tokens (S fuel) current current t);
      auto; try lia.
    unfold ParseA.walk_token, ParseA.unhandled, ParseA.is_tok in *.
    destruct (LexA.type t); try discriminate; simpl in *.
    + apply negb_true_iff in Hun.
      repeat (apply orb_false_elim in Hun; destruct Hun as [-> Hun]).
      reflexivity.
    + apply negb_true_iff in Hun.
      apply orb_false_elim in Hun. destruct Hun as [-> Hun].
      unfold includes, ParseA.skipPunctuation. simpl. now rewrite Hun.
Qed.

(** The top-level loop never ends once [walk] returns [null] without
    moving the cursor. *)
Lemma parse_loop_stuck tokens current :
  current < List.length tokens ->
  (forall f, fuel_le (ParseA.walk tokens f current) (Ok (None, current))) ->
  forall fuel body,
    ParseA.parse_loop tokens fuel body current = OutOfFuel.
Proof.
  intros Hlt Hw fuel. induction fuel as [| fuel IH]; intros body;
    [reflexivity|].
  simpl. apply Nat.ltb_lt in Hlt. rewrite Hlt.
  destruct (Hw fuel) as [-> | ->]; [reflexivity|]. simpl. apply IH.
Qed.

(** [parse] never returns on a stream whose first token no rule handles,
    such as the keyword [let]. *)
Lemma parse_unhandled_diverges t tokens fuel :
  ParseA.unhandled t = true ->
  ParseA.parse (t :: tokens) fuel = OutOfFuel.
Proof.
  intros Hun. unfold ParseA.parse. simpl.
  assert (Hlast : exists l,
    ParseA.read (t :: tokens) "end" (List.length tokens - 0) = Ok l).
  { unfold ParseA.read.
    destruct (nth_error (t :: tokens) (List.length tokens - 0)) eqn:E;
      [eauto|].
    apply nth_error_None in E. simpl in E. lia. }
  destruct Hlast as [l ->]. simpl.
  rewrite (parse_loop_stuck (t :: tokens) 0); [reflexivity | simpl; lia |].
  intros f. now apply (walk_unhandled (t :: tokens) f 0 t).
Qed.

Lemma lexA_tokenize_enough n fuel code r :
  LexA.tokenize n code = r -> r <> OutOfFuel ->
  LexA.tokenize (n + fuel) code = r.
Proof.
  intros <- Hr. apply fuel_le_defined; [| exact Hr].
  apply lexA_tokenize_mono. lia.
Qed.

Lemma parse_source_enough n fuel code r :
  ParseA.parse_source n code = r -> r <> OutOfFuel ->
  ParseA.parse_source (n + fuel) code = r.
Proof.
  intros <- Hr. apply fuel_le_defined; [| exact Hr].
  apply parse_source_mono. lia.
Qed.

(** [parse(tokenize(code))] never returns when the first token of [code]
    is one no rule of [walk] handles. *)
Lemma parse_source_unhandled_diverges n code t toks :
  LexA.tokenize n code = Ok (t :: toks) ->
  ParseA.unhandled t = true ->
  forall fuel, ParseA.parse_source fuel code = OutOfFuel.
Proof.
  intros Htok Hun fuel. unfold ParseA.parse_source.
  assert (H : fuel_le (LexA.tokenize fuel code) (Ok (t :: toks))).
  { destruct (Nat.le_ge_cases fuel n) as [Hle | Hge].
    - rewrite <- Htok. now apply lexA_tokenize_mono.
    - right. rewrite <- Htok.
      apply fuel_le_defined; [now apply lexA_tokenize_mono|].
      rewrite Htok. discriminate. }
  destruct H as [-> | ->]; [reflexivity|]. simpl.
  now apply parse_unhandled_diverges.
Qed.

Tactic Notation "past_end" integer(n) :=
  let i := fresh "i" in
  let Hi := fresh "Hi" in
  intros i Hi;
  do n (destruct i as [| i]; [first [lia | discriminate] |]);
  unfold char_at; simpl; destruct i; discriminate.

(** The second parser never returns either once its top-level loop stands
    on a punctuation token other than the semicolon: the statement it
    builds consumes nothing. *)
Lemma parseB_punctuation_diverges tokens current t :
  nth_error tokens current = Some t ->
  LexB.type t = LexB.Punctuation ->
  str_eqb (LexB.value t) (lit ";") = false ->
  forall fuel body,
    ParseB.parse_loop tokens fuel body current = OutOfFuel.
Proof.
  intros Ht Hty Hv fuel.
  assert (Hlt : (current <? List.length tokens) = true).
  { apply Nat.ltb_lt. apply nth_error_Some. now rewrite Ht. }
  assert (Hc : forall f,
    fuel_le (ParseB.collect tokens f [] current) (Ok ([], current))).
  { intros [| f]; [now left | right]. simpl. rewrite Hlt.
    unfold ParseB.peek. rewrite Ht. simpl.
    unfold ParseB.type_is. now rewrite Hty. }
  induction fuel as [| fuel IH]; intros body; [reflexivity|].
  simpl. rewrite Hlt. unfold ParseB.peek at 1. rewrite Ht. simpl.
  unfold ParseB.type_is at 1 2. rewrite Hty. simpl.
  unfold ParseB.parseExpressionStatement, ParseB.peek. rewrite Ht. simpl.
  destruct (Hc fuel) as [-> | ->]; [reflexivity|]. simpl.
  rewrite Hlt, Ht, Hv. unfold ParseB.type_is. rewrite Hty. simpl.
  apply IH.
Qed.

(* ------------------------------------------------------------------ *)
(** * The claims *)

(** C1 (the code departs from it).  The values of the tokens of
    [tokenize] should spell the source, string quotes included.  The
    string rule of the lexer of src/parser.js leaves the opening quote out
    of the token: the source ['a'] gives one STRING token whose value is
    [a'], so the values spell [a'] and not the source. *)
Theorem string_token_loses_opening_quote :
  forall fuel,
    LexA.tokenize (4 + fuel) (lit "'a'")
    = Ok [ {| LexA.type := LexA.STRING; LexA.value := lit "a'";
              LexA.line := 1; LexA.start := 0; LexA.end_ := 2 |} ]
    /\ LexA.text
         [ {| LexA.type := LexA.STRING; LexA.value := lit "a'";
              LexA.line := 1; LexA.start := 0; LexA.end_ := 2 |} ]
       <> lit "'a'".
Proof.
  intros fuel. split.
  - apply lexA_tokenize_enough; [vm_compute; reflexivity | discriminate].
  - vm_compute. discriminate.
Qed.

(** C2 (the code departs from it).  Neither function ends on every
    input.  On the source [//], a comment that reaches the end of input
    with no newline, [tokenize] of src/parser.js exhausts every fuel: its
    comment loop reads past the end for ever.  The source [let x;] is
    tokenized, and on its tokens [parse] exhausts every fuel: [walk]
    returns [null] on the keyword [let] without moving the cursor. *)
Theorem comment_at_end_and_let_never_return :
  forall fuel,
    LexA.tokenize fuel (lit "//") = OutOfFuel
    /\ (exists toks, LexA.tokenize 8 (lit "let x;") = Ok toks)
    /\ ParseA.parse_source fuel (lit "let x;") = OutOfFuel.
Proof.
  intros fuel. split; [| split].
  - apply lexA_comment_diverges; try reflexivity. past_end 2.
  - eexists. vm_compute. reflexivity.
  - eapply (parse_source_unhandled_diverges 8);
      [vm_compute; reflexivity | reflexivity].
Qed.

(** C3 (the code departs from it).  On the source ['abc], whose opening
    quote is never closed, [tokenize] of src/parser.js raises nothing: its
    string loop reads past the end of the buffer for ever, and the run
    exhausts every fuel. *)
Theorem unterminated_string_never_returns :
  forall fuel, LexA.tokenize fuel (lit "'abc") = OutOfFuel.
Proof.
  intros fuel. apply (lexA_string_diverges fuel _ _ SQUOTE);
    [now right | reflexivity |]. past_end 4.
Qed.



(** C5 (counterexample).  The character [@] matches no lexical rule.  The
    lexer of part_000 does not fail on the source [@]: it emits a
    Punctuation token for it.  The lexer of src/parser.js does not fail on
    a source that holds [@] inside a comment. *)
Lemma unmatched_character_is_tokenized :
  LexB.tokenize 2 (lit "@")
  = Ok [ {| LexB.type := LexB.Punctuation; LexB.value := lit "@";
            LexB.range := (0%Z, 1%Z);
            LexB.loc := LexB.createLoc 1 0 1 1 |} ]
  /\ LexA.tokenize 5 (lit "//@" ++ [NL])
     = Ok [ {| LexA.type := LexA.COMMENT; LexA.value := lit "//@";
               LexA.line := 1; LexA.start := 0; LexA.end_ := 3 |};
            {| LexA.type := LexA.NEWLINE; LexA.value := [NL];
               LexA.line := 2; LexA.start := 3; LexA.end_ := 4 |} ].
Proof. split; vm_compute; reflexivity. Qed.

Lemma run_while_no_throw cond fuel source : forall v current column e,
  LexB.run_while cond fuel source v current column <> Throw e.
Proof.
  induction fuel as [| fuel IH]; intros v current column e;
    [discriminate|].
  simpl.
  destruct ((current <? List.length source)
            && cond (char_at source current)); [apply IH | discriminate].
Qed.

Lemma lexB_iteration_no_throw fuel source st e :
  LexB.iteration fuel source st <> Throw e.
Proof.
  unfold LexB.iteration.
  repeat match goal with
         | |- (if ?b then _ else _) <> _ => destruct b
         end;
    try discriminate;
    match goal with
    | |- bind (LexB.run_while ?c ?f ?s ?v ?n ?k) _ <> _ =>
        pose proof (run_while_no_throw c f s v n k e) as H;
        destruct (LexB.run_while c f s v n k) as [[[? ?] ?] | ? |];
        cbn [bind]; [discriminate | congruence | discriminate]
    end.
Qed.

Lemma lexB_tokenize_loop_no_throw fuel source e : forall st,
  LexB.tokenize_loop fuel source st <> Throw e.
Proof.
  induction fuel as [| fuel IH]; intros st; [discriminate|].
  simpl. destruct (LexB.current st <? List.length source);
    [| discriminate].
  destruct (LexB.iteration fuel source st) as [st' | e' |] eqn:E;
    cbn [bind]; [apply IH | | discriminate].
  now elim (lexB_iteration_no_throw fuel source st e').
Qed.

(** C5, as the code has it.  The lexer of src/parser.js: when its main
    loop stands on a character that is no newline, whitespace, digit,
    quote, ASCII letter, operator or punctuation character, [tokenize]
    throws a [TypeError] whose message is [Unexpected character: ]
    followed by that character (the error carries no position).  The
    lexer of part_000 never fails: it returns a token list on every
    source and throws on none; when its main loop stands on a character
    that is no whitespace, slash, digit, letter or underscore, it emits a
    one-character Punctuation token for it and goes on to the next
    character. *)
Theorem unmatched_character_outcome :
  (forall (fuel : nat) (code : jsstring) (c : codeunit) (st : LexA.state),
     char_at code (LexA.current st) = Some c ->
     LexA.unmatched c = true ->
     LexA.tokenize_loop (S fuel) code st
     = Throw (TypeError (lit "Unexpected character: " ++ [c])))
  /\ (forall source : jsstring,
        (exists toks,
           LexB.tokenize (S (List.length source)) source = Ok toks)
        /\ forall fuel e, LexB.tokenize fuel source <> Throw e)
  /\ (forall (fuel : nat) (source : jsstring) (c : codeunit)
             (st : LexB.state),
        char_at source (LexB.current st) = Some c ->
        LexB.other c = true ->
        LexB.iteration fuel source st
        = Ok {| LexB.tokens :=
                  LexB.tokens st ++
                  [ {| LexB.type := LexB.Punctuation; LexB.value := [c];
                       LexB.range :=
                         (Z.of_nat (LexB.current st),
                          (Z.of_nat (LexB.current st) + 1)%Z);
                       LexB.loc :=
                         LexB.createLoc (LexB.cur_line st)
                           (LexB.cur_column st) (LexB.cur_line st)
                           (LexB.cur_column st + 1) |} ];
                LexB.current := S (LexB.current st);
                LexB.cur_line := LexB.cur_line st;
                LexB.cur_column := (LexB.cur_column st + 1)%Z;
                LexB.insideString := LexB.insideString st;
                LexB.insideRegex := LexB.insideRegex st |}).
Proof.
  split; [| split].
  - intros fuel code c stA HA Hun.
    unfold LexA.unmatched in Hun.
    repeat (apply andb_prop in Hun; destruct Hun as [Hun ?]).
    repeat match goal with
           | H : negb _ = true |- _ => apply negb_true_iff in H
           end.
    assert (Hslash : N.eqb c SLASH = false).
    { destruct (N.eqb_spec c SLASH) as [-> | _]; [discriminate | reflexivity]. }
    simpl. rewrite (char_at_some_lt _ _ _ HA).
    unfold LexA.iteration. rewrite HA. unfold regex_test. simpl to_str.
    cbn [char_eqb existsb].
    repeat match goal with
           | H : _ = false |- _ => rewrite H
           end.
    reflexivity.
  - intros source. split; [apply lexB_tokenize_total|].
    intros fuel e. apply lexB_tokenize_loop_no_throw.
  - intros fuel source c stB HB Hother. unfold LexB.other in Hother.
    repeat (apply andb_prop in Hother; destruct Hother as [Hother ?]).
    repeat match goal with
           | H : negb _ = true |- _ => apply negb_true_iff in H
           end.
    assert (Hnl : N.eqb c NL = false).
    { destruct (N.eqb_spec c NL) as [-> | _]; [discriminate | reflexivity]. }
    unfold LexB.iteration. rewrite HB. unfold regex_test. simpl to_str.
    cbn [char_eqb existsb].
    repeat match goal with
           | H : _ = false |- _ => rewrite H
           end.
    reflexivity.
Qed.

(** The theorem of C5 at the source [@] for the lexer of src/parser.js,
    and at the source [a=@] for the lexer of part_000, with its main loop
    on the [=] at offset 1. *)
Lemma unmatched_character_outcome_witness :
  LexA.tokenize 1 (lit "@")
  = Throw (TypeError (lit "Unexpected character: @"))
  /\ (exists toks, LexB.tokenize 4 (lit "a=@") = Ok toks)
  /\ (forall fuel e, LexB.tokenize fuel (lit "a=@") <> Throw e)
  /\ LexB.iteration 0 (lit "a=@")
       {| LexB.tokens := []; LexB.current := 1; LexB.cur_line := 1;
          LexB.cur_column := 1; LexB.insideString := false;
          LexB.insideRegex := false |}
     = Ok {| LexB.tokens :=
               [ {| LexB.type := LexB.Punctuation; LexB.value := lit "=";
                    LexB.range := (1%Z, 2%Z);
                    LexB.loc := LexB.createLoc 1 1 1 2 |} ];
             LexB.current := 2; LexB.cur_line := 1; LexB.cur_column := 2;
             LexB.insideString := false; LexB.insideRegex := false |}.
Proof.
  destruct unmatched_character_outcome as (HA & HB & HC).
  split.
  { exact (HA 0 (lit "@") 64%N
             {| LexA.tokens := []; LexA.current := 0; LexA.cur_line := 1;
                LexA.column := 0 |} eq_refl eq_refl). }
  split; [exact (proj1 (HB (lit "a=@")))|].
  split; [exact (proj2 (HB (lit "a=@")))|].
  exact (HC 0 (lit "a=@") 61%N
           {| LexB.tokens := []; LexB.current := 1; LexB.cur_line := 1;
              LexB.cur_column := 1; LexB.insideString := false;
              LexB.insideRegex := false |} eq_refl eq_refl).
Defined.

(** C6 (the code departs from it).  [parse(tokenize(...))] of the source
    [function add(a, b) { return a; }] returns a [Program] whose body is
    empty, not a [FunctionDeclaration]: the two increments meant to step
    over the closing parenthesis and the opening brace step over the
    parenthesis and the space, the braces are then read as a block inside
    the function body, and the function rule returns [null] when that
    block ends the stream. *)
Theorem function_add_parses_to_empty_program :
  forall fuel,
    ParseA.parse_source (40 + fuel)
      (lit "function add(a, b) { return a; }")
    = Ok {| ParseA.body := [];
            ParseA.prog_span :=
              {| ParseA.line := 1; ParseA.start := 0;
                 ParseA.end_ := 31 |} |}.
Proof.
  intros fuel.
  apply parse_source_enough; [vm_compute; reflexivity | discriminate].
Qed.

(** Without the space before the opening brace the function rule does
    return a [FunctionDeclaration], with a [null] in its body list. *)
Lemma function_add_without_space :
  forall fuel,
    ParseA.parse_source (40 + fuel)
      (lit "function add(a, b){ return a; }")
    = Ok {| ParseA.body :=
              [ ParseA.FunctionDeclaration
                  (Some (ParseA.Identifier (lit "add")
                           {| ParseA.line := 1; ParseA.start := 9;
                              ParseA.end_ := 12 |}))
                  [ Some (ParseA.Identifier (lit "a")
                            {| ParseA.line := 1; ParseA.start := 13;
                               ParseA.end_ := 14 |});
                    Some (ParseA.Identifier (lit "b")
                            {| ParseA.line := 1; ParseA.start := 16;
                               ParseA.end_ := 17 |}) ]
                  [ Some (ParseA.ReturnStatement
                            (Some (ParseA.Identifier (lit "a")
                                     {| ParseA.line := 1; ParseA.start := 27;
                                        ParseA.end_ := 28 |}))
                            {| ParseA.line := 1; ParseA.start := 20;
                               ParseA.end_ := 26 |});
                    None ]
                  {| ParseA.line := 1; ParseA.start := 29;
                     ParseA.end_ := 30 |} ];
            ParseA.prog_span :=
              {| ParseA.line := 1; ParseA.start := 0;
                 ParseA.end_ := 30 |} |}.
Proof.
  intros fuel.
  apply parse_source_enough; [vm_compute; reflexivity | discriminate].
Qed.

(** C7 (the code departs from it).  [parse(tokenize(...))] of the source
    [const x = 42;] returns a declaration whose [init] is [null], not
    [Literal 42]: the test for the equals sign looks at the whitespace
    token after the identifier.  On [let x = 42;] and [var x = 42;],
    [parse] never returns: [walk] has a rule for [const] only. *)
Theorem const_x_42_has_null_init :
  forall fuel,
    ParseA.parse_source (40 + fuel) (lit "const x = 42;")
    = Ok {| ParseA.body :=
              [ ParseA.VariableDeclaration
                  [ (Some (ParseA.Identifier (lit "x")
                             {| ParseA.line := 1; ParseA.start := 6;
                                ParseA.end_ := 7 |}),
                     None) ]
                  (lit "const")
                  {| ParseA.line := 1; ParseA.start := 0;
                     ParseA.end_ := 5 |} ];
            ParseA.prog_span :=
              {| ParseA.line := 1; ParseA.start := 0;
                 ParseA.end_ := 12 |} |}
    /\ ParseA.parse_source fuel (lit "let x = 42;") = OutOfFuel
    /\ ParseA.parse_source fuel (lit "var x = 42;") = OutOfFuel.
Proof.
  intros fuel. split; [| split].
  - apply parse_source_enough; [vm_compute; reflexivity | discriminate].
  - eapply (parse_source_unhandled_diverges 40);
      [vm_compute; reflexivity | reflexivity].
  - eapply (parse_source_unhandled_diverges 40);
      [vm_compute; reflexivity | reflexivity].
Qed.

(** With no whitespace around the equals sign the rule for [const] reads
    the initializer. *)
Lemma const_x_42_without_spaces :
  forall fuel,
    ParseA.parse_source (40 + fuel) (lit "const x=42;")
    = Ok {| ParseA.body :=
              [ ParseA.VariableDeclaration
                  [ (Some (ParseA.Identifier (lit "x")
                             {| ParseA.line := 1; ParseA.start := 6;
                                ParseA.end_ := 7 |}),
                     Some (ParseA.Literal (lit "42")
                             {| ParseA.line := 1; ParseA.start := 8;
                                ParseA.end_ := 10 |})) ]
                  (lit "const")
                  {| ParseA.line := 1; ParseA.start := 0;
                     ParseA.end_ := 5 |} ];
            ParseA.prog_span :=
              {| ParseA.line := 1; ParseA.start := 0;
                 ParseA.end_ := 10 |} |}.
Proof.
  intros fuel.
  apply parse_source_enough; [vm_compute; reflexivity | discriminate].
Qed.

Lemma walk_enough tokens n fuel current r :
  ParseA.walk tokens n current = r -> r <> OutOfFuel ->
  ParseA.walk tokens (n + fuel) current = r.
Proof.
  intros <- Hr. apply fuel_le_defined; [| exact Hr].
  apply walk_mono. lia.
Qed.

(** C8 (the code departs from it).  On the tokens of [+ 1 2;], [walk]
    consumes the five tokens 0 to 4 and returns a [BinaryExpression] whose
    [start] and [end] are those of the operator token alone: the node ends
    at offset 1, the last token it consumed ends at offset 5. *)
Theorem binary_expression_spans_operator_only :
  forall fuel,
    let tok ty v s e :=
      {| LexA.type := ty; LexA.value := v; LexA.line := 1;
         LexA.start := s; LexA.end_ := e |} in
    let toks :=
      [ tok LexA.OPERATOR (lit "+") 0%Z 1%Z;
        tok LexA.WHITESPACE (lit " ") 0%Z 1%Z;
        tok LexA.NUMBER (lit "1") 2%Z 3%Z;
        tok LexA.WHITESPACE (lit " ") 2%Z 3%Z;
        tok LexA.NUMBER (lit "2") 4%Z 5%Z;
        tok LexA.PUNCTUATION (lit ";") 4%Z 5%Z ] in
    let n :=
      ParseA.BinaryExpression (lit "+")
        (ParseA.Literal (lit "1")
           {| ParseA.line := 1; ParseA.start := 2; ParseA.end_ := 3 |})
        (ParseA.Literal (lit "2")
           {| ParseA.line := 1; ParseA.start := 4; ParseA.end_ := 5 |})
        {| ParseA.line := 1; ParseA.start := 0; ParseA.end_ := 1 |} in
    LexA.tokenize (9 + fuel) (lit "+ 1 2;") = Ok toks
    /\ ParseA.walk toks (9 + fuel) 0 = Ok (Some n, 5)
    /\ ~ ParseA.spans_consumed toks 0 4 n.
Proof.
  intros fuel tok toks n. split; [| split].
  - apply lexA_tokenize_enough; [vm_compute; reflexivity | discriminate].
  - apply walk_enough; [vm_compute; reflexivity | discriminate].
  - intros (tf & tl & Hf & Hl & _ & He).
    simpl in Hf, Hl. injection Hf as <-. injection Hl as <-.
    simpl in He. discriminate.
Qed.

(** C9 (the code departs from it).  Both lexers return no token on the
    empty source.  On the empty token list the [walk] parser throws: it
    reads [tokens[0].line] to build the [Program] before anything else.
    The other parser of the file guards these reads and returns a
    [Program] with an empty body. *)
Theorem parse_of_empty_list_throws :
  forall fuel,
    LexA.tokenize (S fuel) [] = Ok []
    /\ LexB.tokenize (S fuel) [] = Ok []
    /\ ParseA.parse [] fuel = Throw (UndefinedRead (lit "line"))
    /\ ParseB.parse [] (S fuel)
       = Ok {| ParseB.body := []; ParseB.prog_tokens := [];
               ParseB.prog_range := (0%Z, 0%Z);
               ParseB.prog_loc := LexB.createLoc 1 0 1 0 |}.
Proof. intros fuel. repeat split. Qed.

(** C10.  Every token of a run of [tokenize] that returns is as long as
    its value: [end - start] is the length of [value].  It holds for the
    lexer of src/parser.js (first part) and for the lexer of part_000
    (second part). *)
Theorem tokens_well_formed :
  forall (fuel : nat) (code : jsstring),
    (forall toks, LexA.tokenize fuel code = Ok toks ->
                  Forall LexA.well_formed toks)
    /\ (forall toks, LexB.tokenize fuel code = Ok toks ->
                     Forall LexB.well_formed toks).
Proof.
  intros fuel code. split; intros toks H.
  - apply (lexA_tokenize_loop_well_formed _ _ _ _ H). constructor.
  - exact (lexB_tokenize_well_formed _ _ _ H).
Qed.

(** The theorem of C10 at the source [const s = 'a'; // c], followed by a
    newline: both lexers return, and their tokens are well formed. *)
Lemma tokens_well_formed_witness :
  exists toksA toksB,
    LexA.tokenize 30 (lit "const s = 'a'; // c" ++ [NL]) = Ok toksA
    /\ LexB.tokenize 30 (lit "const s = 'a'; // c" ++ [NL]) = Ok toksB
    /\ Forall LexA.well_formed toksA
    /\ Forall LexB.well_formed toksB.
Proof.
  destruct (tokens_well_formed 30 (lit "const s = 'a'; // c" ++ [NL]))
    as [HA HB].
  eexists. eexists.
  split; [vm_compute; reflexivity|].
  split; [vm_compute; reflexivity|].
  split; [apply HA | apply HB]; vm_compute; reflexivity.
Defined.

(* ------------------------------------------------------------------ *)
(** * Further properties of the code *)

Lemma chain_snoc {T S : Type} (ok : S -> T -> Prop) (next : T -> S)
    (toks : list T) (t : T) : forall from upto,
  chain ok next from toks upto -> ok upto t ->
  chain ok next from (toks ++ [t]) (next t).
Proof.
  induction toks as [| x toks IH]; intros from upto H Hok; simpl in *.
  - subst. now split.
  - destruct H as [Hx H]. split; [exact Hx | now apply (IH _ upto)].
Qed.

Lemma snoc_split {A} (l pre post : list A) (x t : A) :
  l ++ [x] = pre ++ t :: post ->
  (post = [] /\ pre = l /\ t = x)
  \/ exists post', post = post' ++ [x] /\ l = pre ++ t :: post'.
Proof.
  intros H. destruct (exists_last (l := t :: post) ltac:(discriminate))
    as (m & y & Hm).
  destruct m as [| t' post'].
  - simpl in Hm. injection Hm as -> ->. left.
    apply app_inj_tail in H. now destruct H as [-> ->].
  - simpl in Hm. injection Hm as -> ->. right. exists post'.
    change (pre ++ t' :: post' ++ [y]) with (pre ++ (t' :: post') ++ [y]) in H.
    rewrite app_assoc in H. apply app_inj_tail in H.
    destruct H as [-> ->]. now split.
Qed.

(** ** The lexer of src/unnamed/part_000 *)

Lemma run_while_chars cls fuel source : forall v cur col v' cur' col',
  LexB.run_while (regex_test cls) fuel source v cur col
  = Ok (v', cur', col') ->
  exists seg,
    v' = v ++ seg /\ forallb cls seg = true
    /\ cur' = cur + List.length seg
    /\ col' = (col + Z.of_nat (List.length seg))%Z.
Proof.
  induction fuel as [| fuel IH]; intros v cur col v' cur' col' H;
    [discriminate|].
  simpl in H.
  destruct (cur <? List.length source) eqn:Hlt; simpl in H.
  - apply Nat.ltb_lt in Hlt. destruct (char_at_lt _ _ Hlt) as [c Hc].
    rewrite Hc in H. unfold regex_test in H. simpl in H.
    rewrite orb_false_r in H. destruct (cls c) eqn:Hcls.
    + apply IH in H. destruct H as (seg & -> & Hseg & -> & ->).
      exists (c :: seg). rewrite <- app_assoc. simpl.
      rewrite Hcls, Hseg. repeat split; lia.
    + injection H as <- <- <-. exists []. rewrite app_nil_r. simpl.
      repeat split; lia.
  - injection H as <- <- <-. exists []. rewrite app_nil_r. simpl.
    repeat split; lia.
Qed.

(** What one pass of the loop adds: one token, described by the state
    before and after. *)
Lemma lexB_iteration_step fuel source st st' c :
  char_at source (LexB.current st) = Some c ->
  LexB.insideString st = false ->
  LexB.iteration fuel source st = Ok st' ->
  exists t,
    LexB.tokens st' = LexB.tokens st ++ [t]
    /\ LexB.insideString st' = false
    /\ LexB.starts_at (Z.of_nat (LexB.current st)) t
    /\ snd (LexB.range t) = Z.of_nat (LexB.current st')
    /\ LexB.located (LexB.position_of st) t
    /\ LexB.position_after t = LexB.position_of st'
    /\ LexB.kind_ok t = true
    /\ LexB.insideRegex st'
       = match LexB.type t with
         | LexB.Regex => negb (LexB.insideRegex st)
         | _ => LexB.insideRegex st
         end
    /\ (LexB.value t = [NL] ->
        LexB.type t = if LexB.insideRegex st then LexB.Whitespace
                      else LexB.Newline).
Proof.
  intros Hc Hs H. unfold LexB.iteration in H. rewrite Hc, Hs in H.
  unfold regex_test in H. cbn [to_str existsb char_eqb negb andb] in H.
  rewrite !orb_false_r in H.
  assert (Hspace_nl : space NL = true) by reflexivity.
  assert (Hrun : forall cls v cur' col',
    LexB.run_while (regex_test cls) fuel source [c]
      (S (LexB.current st)) (LexB.cur_column st + 1)%Z
    = Ok (v, cur', col') ->
    exists seg, v = c :: seg /\ forallb cls seg = true
      /\ Z.of_nat cur' = (Z.of_nat (LexB.current st)
                          + Z.of_nat (List.length v))%Z
      /\ col' = (LexB.cur_column st + Z.of_nat (List.length v))%Z).
  { intros cls v cur' col' E. apply run_while_chars in E.
    destruct E as (seg & -> & Hseg & -> & ->). exists seg.
    simpl List.length. repeat split; auto; lia. }
  destruct (N.eqb c NL && negb (LexB.insideRegex st)) eqn:E1.
  { injection H as <-. eexists. split; [reflexivity|]. simpl.
    apply andb_prop in E1. destruct E1 as [E1 E2].
    apply negb_true_iff in E2.
    unfold LexB.starts_at, LexB.located, LexB.position_after,
      LexB.position_of, LexB.kind_ok. simpl. rewrite ?E1, ?E2.
    repeat split; auto; lia. }
  destruct (space c) eqn:E2.
  { injection H as <-. eexists. split; [reflexivity|]. simpl.
    unfold LexB.starts_at, LexB.located, LexB.position_after,
      LexB.position_of, LexB.kind_ok. simpl. rewrite E2.
    repeat split; auto; try lia.
    intros Hv. injection Hv as ->. simpl in E1.
    now destruct (LexB.insideRegex st). }
  assert (Hnl : N.eqb c NL = false).
  { destruct (N.eqb_spec c NL) as [-> | _]; [congruence | reflexivity]. }
  assert (Hnotnl : forall rest, c :: rest <> [NL]).
  { intros rest Hv. injection Hv as -> _. discriminate. }
  destruct (N.eqb c SLASH) eqn:E3.
  { injection H as <-. eexists. split; [reflexivity|]. simpl.
    unfold LexB.starts_at, LexB.located, LexB.position_after,
      LexB.position_of, LexB.kind_ok. simpl. rewrite E3.
    repeat split; auto; try lia. intros Hv. now elim (Hnotnl []). }
  cbn [andb] in H.
  destruct (digit c) eqn:E4.
  { destruct (LexB.run_while _ fuel source [c] _ _)
      as [[[v cur'] col'] | e |] eqn:E; simpl in H; try discriminate.
    injection H as <-. destruct (Hrun _ _ _ _ E) as (seg & -> & Hseg & Hcur & ->).
    eexists. split; [reflexivity|]. simpl.
    unfold LexB.starts_at, LexB.located, LexB.position_after,
      LexB.position_of, LexB.kind_ok. simpl. rewrite E4, Hseg.
    repeat split; auto; try lia. intros Hv. now elim (Hnotnl seg). }
  destruct (alpha_ c) eqn:E5.
  { destruct (LexB.run_while _ fuel source [c] _ _)
      as [[[v cur'] col'] | e |] eqn:E; cbn [bind] in H; try discriminate.
    remember (includes LexB.keywords v) as kw eqn:Ek in H.
    injection H as <-. destruct (Hrun _ _ _ _ E) as (seg & -> & Hseg & Hcur & ->).
    unfold LexB.starts_at, LexB.located, LexB.position_after,
      LexB.position_of, LexB.kind_ok, LexB.addToken.
    destruct kw;
      (eexists; split; [reflexivity|]);
      cbn [LexB.tokens LexB.current LexB.cur_line LexB.cur_column
           LexB.insideString LexB.insideRegex LexB.type LexB.value
           LexB.range LexB.loc LexB.loc_start LexB.loc_end LexB.line
           LexB.column LexB.createLoc fst snd];
      rewrite <- ?Ek, ?E5, ?Hseg; cbn [andb negb];
      repeat split; auto; try lia;
      try (intros Hv; now elim (Hnotnl seg)). }
  injection H as <-. eexists. split; [reflexivity|]. simpl.
  unfold LexB.starts_at, LexB.located, LexB.position_after,
    LexB.position_of, LexB.kind_ok, LexB.other. simpl.
  rewrite E2, E3, E4, E5.
  repeat split; auto; try lia. intros Hv. now elim (Hnotnl []).
Qed.

Lemma regex_after_snoc inside toks t :
  LexB.regex_after inside (toks ++ [t])
  = match LexB.type t with
    | LexB.Regex => negb (LexB.regex_after inside toks)
    | _ => LexB.regex_after inside toks
    end.
Proof. unfold LexB.regex_after. now rewrite fold_left_app. Qed.

Lemma lexB_iteration_invariant fuel source st st' :
  LexB.invariant source st ->
  LexB.current st < List.length source ->
  LexB.iteration fuel source st = Ok st' ->
  LexB.invariant source st'.
Proof.
  intros (Hle & Hs & Hr & Hl & Hk & Hx & Hn) Hlt H.
  destruct (char_at_lt _ _ Hlt) as [c Hc].
  destruct (lexB_iteration_inv _ _ _ _ Hlt H) as (Hcur & _).
  destruct (lexB_iteration_step _ _ _ _ _ Hc Hs H)
    as (t & Ht & Hs' & Hst & Hen & Hloc & Hpos & Hkind & Hre & Hnl).
  unfold LexB.invariant. rewrite Ht.
  split; [lia|]. split; [exact Hs'|]. split; [| split; [| split; [| split]]].
  - rewrite <- Hen.
    exact (chain_snoc _ (fun t => snd (LexB.range t)) _ t _ _ Hr Hst).
  - rewrite <- Hpos. exact (chain_snoc _ _ _ t _ _ Hl Hloc).
  - rewrite forallb_app, Hk. simpl. now rewrite Hkind.
  - rewrite regex_after_snoc, Hx. now rewrite Hre.
  - intros pre t' post Heq Hv.
    destruct (snoc_split _ _ _ _ _ Heq)
      as [(-> & -> & ->) | (post' & -> & Heq')].
    + rewrite Hx. now apply Hnl.
    + now apply (Hn pre t' post').
Qed.

Lemma lexB_tokenize_loop_invariant fuel source : forall st toks,
  LexB.tokenize_loop fuel source st = Ok toks ->
  LexB.invariant source st ->
  exists st',
    LexB.invariant source st' /\ LexB.tokens st' = toks
    /\ LexB.current st' = List.length source.
Proof.
  induction fuel as [| fuel IH]; intros st toks H Hinv; [discriminate|].
  simpl in H. destruct (LexB.current st <? List.length source) eqn:Hlt.
  - apply Nat.ltb_lt in Hlt.
    destruct (LexB.iteration fuel source st) as [st1 | e |] eqn:E;
      simpl in H; try discriminate.
    apply (IH st1 toks H).
    exact (lexB_iteration_invariant _ _ _ _ Hinv Hlt E).
  - apply Nat.ltb_ge in Hlt. injection H as <-. exists st.
    split; [exact Hinv|]. split; [reflexivity|].
    destruct Hinv as (Hle & _). lia.
Qed.

Lemma lexB_tokenize_invariant fuel source toks :
  LexB.tokenize fuel source = Ok toks ->
  exists st,
    LexB.invariant source st /\ LexB.tokens st = toks
    /\ LexB.current st = List.length source.
Proof.
  intros H. apply (lexB_tokenize_loop_invariant _ _ _ _ H).
  unfold LexB.invariant, LexB.newlines_ok. simpl.
  repeat split; auto; try lia.
  intros [| x pre] t post Heq; discriminate.
Qed.

(** X1.  The lexer of part_000 returns on every source, within a number of
    loop passes bounded by the length of the source, and the values of its
    tokens, in order, spell the source. *)
Theorem lexB_returns_and_is_lossless :
  forall source : jsstring,
    exists toks,
      LexB.tokenize (S (List.length source)) source = Ok toks
      /\ LexB.text toks = source.
Proof.
  intros source.
  destruct (lexB_tokenize_loop_total (S (List.length source)) source
              {| LexB.tokens := []; LexB.current := 0; LexB.cur_line := 1;
                 LexB.cur_column := 0; LexB.insideString := false;
                 LexB.insideRegex := false |}) as [toks H];
    [simpl; lia|].
  exists toks. split; [exact H|].
  apply (lexB_tokenize_loop_inv _ _ _ _ H); simpl; [lia | reflexivity].
Qed.

(** X2.  The ranges of the tokens of the lexer of part_000 partition the
    source: the first token starts at offset 0, every other token starts
    at the offset where the token before it ends, and the last token ends
    at the length of the source. *)
Theorem lexB_ranges_partition :
  forall (fuel : nat) (source : jsstring) (toks : list LexB.token),
    LexB.tokenize fuel source = Ok toks ->
    chain LexB.starts_at (fun t => snd (LexB.range t)) 0%Z toks
      (Z.of_nat (List.length source)).
Proof.
  intros fuel source toks H.
  destruct (lexB_tokenize_invariant _ _ _ H)
    as (st & (_ & _ & Hr & _) & <- & Hend).
  now rewrite <- Hend.
Qed.

(** X3.  The locations of the tokens of the lexer of part_000 follow one
    another from line 1, column 0: every token stays on one line and is as
    many columns wide as its value is long, the token after a Newline
    token starts at column 0 of the next line, and the token after any
    other token starts where that token ends. *)
Theorem lexB_locations_follow :
  forall (fuel : nat) (source : jsstring) (toks : list LexB.token),
    LexB.tokenize fuel source = Ok toks ->
    exists upto,
      chain LexB.located LexB.position_after
        {| LexB.line := 1; LexB.column := 0 |} toks upto.
Proof.
  intros fuel source toks H.
  destruct (lexB_tokenize_invariant _ _ _ H)
    as (st & (_ & _ & _ & Hl & _) & <- & _).
  now exists (LexB.position_of st).
Qed.

(** X4.  Every token of the lexer of part_000 holds what its type says: a
    Newline token the newline, a Whitespace token one whitespace
    character, a Regex token one slash, a Numeric token a non-empty run of
    digits, a Keyword token one of the keywords, an Identifier token a
    letter or underscore followed by letters, digits and underscores that
    is no keyword, and a Punctuation token one character that is none of
    these. *)
Theorem lexB_token_kinds :
  forall (fuel : nat) (source : jsstring) (toks : list LexB.token),
    LexB.tokenize fuel source = Ok toks ->
    forallb LexB.kind_ok toks = true.
Proof.
  intros fuel source toks H.
  destruct (lexB_tokenize_invariant _ _ _ H)
    as (st & (_ & _ & _ & _ & Hk & _) & <- & _).
  exact Hk.
Qed.

(** X5.  In the lexer of part_000 every slash toggles the regex flag, and
    a newline character is lexed by that flag alone: it becomes a Newline
    token when an even number of Regex tokens precede it and a Whitespace
    token (with no change of line) when that number is odd. *)
Theorem lexB_newline_inside_regex :
  forall (fuel : nat) (source : jsstring) (toks : list LexB.token),
    LexB.tokenize fuel source = Ok toks ->
    forall pre t post,
      toks = pre ++ t :: post ->
      LexB.value t = [NL] ->
      LexB.type t = if LexB.regex_after false pre then LexB.Whitespace
                    else LexB.Newline.
Proof.
  intros fuel source toks H.
  destruct (lexB_tokenize_invariant _ _ _ H)
    as (st & (_ & _ & _ & _ & _ & _ & Hn) & <- & _).
  exact Hn.
Qed.

(** X2 at the source [let x1 = 42;], a newline, [/a], a newline, [/ b_2]. *)
Lemma lexB_ranges_partition_witness :
  exists toks,
    LexB.tokenize 40
      (lit "let x1 = 42;" ++ [NL] ++ lit "/a" ++ [NL] ++ lit "/ b_2")
    = Ok toks
    /\ chain LexB.starts_at (fun t => snd (LexB.range t)) 0%Z toks
         (Z.of_nat
            (List.length
               (lit "let x1 = 42;" ++ [NL] ++ lit "/a" ++ [NL]
                ++ lit "/ b_2"))).
Proof.
  eexists. split; [vm_compute; reflexivity|].
  apply (lexB_ranges_partition 40
           (lit "let x1 = 42;" ++ [NL] ++ lit "/a" ++ [NL] ++ lit "/ b_2")).
  vm_compute. reflexivity.
Defined.

(** X3 at the same source. *)
Lemma lexB_locations_follow_witness :
  exists toks,
    LexB.tokenize 40
      (lit "let x1 = 42;" ++ [NL] ++ lit "/a" ++ [NL] ++ lit "/ b_2")
    = Ok toks
    /\ exists upto,
         chain LexB.located LexB.position_after
           {| LexB.line := 1; LexB.column := 0 |} toks upto.
Proof.
  eexists. split; [vm_compute; reflexivity|].
  apply (lexB_locations_follow 40
           (lit "let x1 = 42;" ++ [NL] ++ lit "/a" ++ [NL] ++ lit "/ b_2")).
  vm_compute. reflexivity.
Defined.

(** X4 at the same source. *)
Lemma lexB_token_kinds_witness :
  exists toks,
    LexB.tokenize 40
      (lit "let x1 = 42;" ++ [NL] ++ lit "/a" ++ [NL] ++ lit "/ b_2")
    = Ok toks
    /\ forallb LexB.kind_ok toks = true.
Proof.
  eexists. split; [vm_compute; reflexivity|].
  apply (lexB_token_kinds 40
           (lit "let x1 = 42;" ++ [NL] ++ lit "/a" ++ [NL] ++ lit "/ b_2")).
  vm_compute. reflexivity.
Defined.

(** X5 at the same source: its first newline follows no slash and its
    second newline follows one. *)
Lemma lexB_newline_inside_regex_witness :
  exists toks,
    LexB.tokenize 40
      (lit "let x1 = 42;" ++ [NL] ++ lit "/a" ++ [NL] ++ lit "/ b_2")
    = Ok toks
    /\ forall pre t post,
         toks = pre ++ t :: post ->
         LexB.value t = [NL] ->
         LexB.type t = if LexB.regex_after false pre then LexB.Whitespace
                       else LexB.Newline.
Proof.
  eexists. split; [vm_compute; reflexivity|].
  apply (lexB_newline_inside_regex 40
           (lit "let x1 = 42;" ++ [NL] ++ lit "/a" ++ [NL] ++ lit "/ b_2")).
  vm_compute. reflexivity.
Defined.

(** ** The lexer of src/parser.js *)

(** What a scanning loop that returns has done: it has appended the
    characters from the cursor up to the first one that fails the
    condition, and it stands on that one, inside the source. *)
Lemma scan_while_chars cond fuel code : forall value char current value' current',
  char = char_at code current ->
  current <= List.length code ->
  scan_while cond fuel code value char current = Ok (value', current') ->
  exists seg,
    value' = value ++ seg
    /\ current' = current + List.length seg
    /\ current' <= List.length code
    /\ forallb (fun c => cond (Some c)) seg = true
    /\ cond (char_at code current') = false
    /\ (forall k, k < List.length seg ->
                  nth_error seg k = char_at code (current + k)).
Proof.
  induction fuel as [| fuel IH];
    intros value char current value' current' -> Hle H; [discriminate|].
  simpl in H. destruct (cond (char_at code current)) eqn:Hcond.
  - destruct (char_at code current) as [c |] eqn:Hc.
    + pose proof (char_at_some_lt _ _ _ Hc) as Hlt. apply Nat.ltb_lt in Hlt.
      destruct (IH _ _ _ _ _ eq_refl Hlt H)
        as (seg & -> & -> & Hb & Hall & Hstop & Hnth).
      exists (c :: seg). rewrite <- app_assoc. simpl.
      rewrite Hcond, Hall.
      replace (current + S (List.length seg))
        with (S current + List.length seg) by lia.
      repeat split; auto.
      intros [| k] Hk.
      * now rewrite Nat.add_0_r.
      * simpl. rewrite Hnth by lia. f_equal. lia.
    + rewrite scan_while_diverges in H; [discriminate|].
      intros i Hi. replace (char_at code i) with (@None codeunit);
        [exact Hcond|].
      symmetry. apply nth_error_None.
      apply nth_error_None in Hc. lia.
  - injection H as <- <-. exists []. rewrite app_nil_r, Nat.add_0_r.
    repeat split; auto. intros k Hk. simpl in Hk. lia.
Qed.

(** A scanning loop entered on a character that passes the condition has
    appended that character first. *)
Lemma scan_while_first cond fuel code c current value' current' :
  char_at code current = Some c ->
  cond (Some c) = true ->
  scan_while cond fuel code [] (Some c) current = Ok (value', current') ->
  exists rest,
    value' = c :: rest
    /\ current' = S current + List.length rest
    /\ current' <= List.length code
    /\ forallb (fun c => cond (Some c)) rest = true
    /\ cond (char_at code current') = false
    /\ (forall k, k < List.length rest ->
                  nth_error rest k = char_at code (S current + k)).
Proof.
  intros Hc Hcond H.
  pose proof (char_at_some_lt _ _ _ Hc) as Hlt. apply Nat.ltb_lt in Hlt.
  destruct (scan_while_chars cond fuel code [] (Some c) current
              value' current' (eq_sym Hc) ltac:(lia) H)
    as (seg & -> & -> & Hb & Hall & Hstop & Hnth).
  destruct seg as [| x seg].
  - rewrite Nat.add_0_r, Hc in Hstop. congruence.
  - pose proof (Hnth 0 ltac:(simpl; lia)) as H0.
    rewrite Nat.add_0_r, Hc in H0. simpl in H0. injection H0 as ->.
    exists seg. simpl in *. apply andb_prop in Hall.
    destruct Hall as [_ Hall].
    replace (current + S (List.length seg))
      with (S (current + List.length seg)) in * by lia.
    repeat split; auto.
    intros k Hk. specialize (Hnth (S k) ltac:(lia)). simpl in Hnth.
    rewrite Hnth. f_equal. lia.
Qed.

Lemma forallb_eq {A} (f g : A -> bool) (l : list A) :
  (forall x, f x = g x) -> forallb f l = forallb g l.
Proof.
  intros H. induction l as [| x l IH]; simpl; [reflexivity|].
  now rewrite H, IH.
Qed.

Ltac lexA_fields :=
  unfold LexA.placed, LexA.after, LexA.lined, LexA.kind_ok,
    LexA.createToken;
  cbn [LexA.tokens LexA.current LexA.cur_line LexA.column LexA.type
       LexA.value LexA.line LexA.start LexA.end_ List.length].

(** What one pass of the loop adds: one token, described by the state
    before and after. *)
Lemma lexA_iteration_step fuel code st st' c :
  char_at code (LexA.current st) = Some c ->
  LexA.iteration fuel code st = Ok st' ->
  exists t,
    LexA.tokens st' = LexA.tokens st ++ [t]
    /\ LexA.current st' <= List.length code
    /\ LexA.placed (Z.of_nat (LexA.current st)) t
    /\ LexA.after t = Z.of_nat (LexA.current st')
    /\ LexA.lined (LexA.cur_line st) t
    /\ LexA.line t = LexA.cur_line st'
    /\ LexA.kind_ok t = true.
Proof.
  intros Hc H.
  pose proof (char_at_some_lt _ _ _ Hc) as Hlt. apply Nat.ltb_lt in Hlt.
  unfold LexA.iteration in H. rewrite Hc in H.
  unfold regex_test in H. cbn [to_str existsb char_eqb] in H.
  rewrite !orb_false_r in H.
  destruct (N.eqb c NL) eqn:E1.
  { injection H as <-. eexists. split; [reflexivity|]. lexA_fields.
    rewrite E1. repeat split; auto; lia. }
  cbn [negb andb] in H. rewrite andb_true_r in H.
  destruct (space c) eqn:E2.
  { injection H as <-. eexists. split; [reflexivity|]. lexA_fields.
    rewrite E1, E2. repeat split; auto; lia. }
  destruct (N.eqb c SLASH
            && char_eqb (char_at code (LexA.current st + 1)) (Some SLASH))
    eqn:E3.
  { destruct (scan_while _ fuel code [] (Some c) (LexA.current st))
      as [[v cur'] | e |] eqn:E; cbn [bind] in H; try discriminate.
    injection H as <-.
    apply andb_prop in E3. destruct E3 as [E3 E3'].
    apply N.eqb_eq in E3. subst c.
    destruct (char_at code (LexA.current st + 1)) as [d |] eqn:Hd;
      [| discriminate].
    simpl in E3'. apply N.eqb_eq in E3'. subst d.
    destruct (scan_while_first _ _ _ _ _ _ _ Hc eq_refl E)
      as (rest & -> & -> & Hb & Hall & Hstop & Hnth).
    destruct rest as [| d rest].
    - simpl in Hstop. rewrite Nat.add_0_r in Hstop.
      replace (S (LexA.current st)) with (LexA.current st + 1) in Hstop
        by lia.
      rewrite Hd in Hstop. discriminate.
    - pose proof (Hnth 0 ltac:(simpl; lia)) as H0. simpl in H0.
      replace (S (LexA.current st + 0)) with (LexA.current st + 1) in H0
        by lia.
      rewrite Hd in H0. injection H0 as ->.
      simpl in Hall. eexists. split; [reflexivity|]. lexA_fields.
      repeat split; auto; try lia. }
  destruct (digit c) eqn:E4.
  { destruct (scan_while _ fuel code [] (Some c) (LexA.current st))
      as [[v cur'] | e |] eqn:E; cbn [bind] in H; try discriminate.
    injection H as <-.
    pose proof (fun Hcond => scan_while_first _ _ _ _ _ _ _ Hc Hcond E)
      as Hf.
    destruct Hf as (rest & -> & -> & Hb & Hall & Hstop & Hnth);
      [cbn [existsb to_str]; now rewrite E4|].
    rewrite (forallb_eq _ digit) in Hall
      by (intros x; cbn [existsb to_str]; apply orb_false_r).
    eexists. split; [reflexivity|]. lexA_fields.
    simpl forallb. rewrite E4, Hall. repeat split; auto; try lia. }
  destruct (N.eqb c DQUOTE || N.eqb c SQUOTE) eqn:E5.
  { destruct (scan_while _ fuel code [] _ (S (LexA.current st)))
      as [[v cur'] | e |] eqn:E; cbn [bind] in H; try discriminate.
    injection H as <-.
    pose proof (fun Hle => scan_while_chars _ _ _ _ _ _ _ _ eq_refl Hle E)
      as Hf.
    destruct Hf as (seg & Hv & -> & Hb & Hall & Hstop & Hnth); [lia|].
    simpl in Hv. subst v.
    assert (Hclose : char_at code (S (LexA.current st) + List.length seg)
                     = Some c).
    { destruct (char_at code (S (LexA.current st) + List.length seg))
        as [d |]; [| discriminate].
      simpl in Hstop. apply negb_false_iff, N.eqb_eq in Hstop.
      now subst. }
    pose proof (char_at_some_lt _ _ _ Hclose) as Hlt2.
    apply Nat.ltb_lt in Hlt2.
    rewrite (forallb_eq _ (fun d => negb (N.eqb d c))) in Hall
      by reflexivity.
    eexists. split; [reflexivity|]. lexA_fields.
    rewrite length_app. simpl List.length.
    assert (Hk : match seg ++ [c] with
                 | [] => false
                 | x :: rest =>
                     (N.eqb (last (x :: rest) x) DQUOTE
                      || N.eqb (last (x :: rest) x) SQUOTE)
                     && forallb
                          (fun d => negb (N.eqb d (last (x :: rest) x)))
                          (removelast (x :: rest))
                 end = true).
    { destruct seg as [| x seg].
      - simpl. now rewrite E5.
      - cbn [app].
        change (x :: (seg ++ [c])) with ((x :: seg) ++ [c]).
        rewrite last_last, removelast_last, E5, Hall. reflexivity. }
    repeat split; auto; try lia. }
  destruct (alpha c) eqn:E6.
  { destruct (scan_while _ fuel code [] (Some c) (LexA.current st))
      as [[v cur'] | e |] eqn:E; cbn [bind] in H; try discriminate.
    remember (includes LexA.KEYWORDS v) as kw eqn:Ek in H.
    pose proof (fun Hcond => scan_while_first _ _ _ _ _ _ _ Hc Hcond E)
      as Hf.
    destruct Hf as (rest & -> & -> & Hb & Hall & Hstop & Hnth);
      [cbn [existsb to_str]; unfold alnum; now rewrite E6|].
    rewrite (forallb_eq _ alnum) in Hall
      by (intros x; cbn [existsb to_str]; apply orb_false_r).
    destruct kw; injection H as <-;
      (eexists; split; [reflexivity|]); lexA_fields;
      rewrite <- ?Ek, ?E6, ?Hall; cbn [andb negb];
      repeat split; auto; try lia. }
  destruct (includes LexA.OPERATORS [c]) eqn:E7.
  { destruct (includes LexA.OPERATORS
                ([c] ++ to_str (char_at code (S (LexA.current st)))))
      eqn:E8; injection H as <-.
    - destruct (char_at code (S (LexA.current st))) as [d |] eqn:Hd.
      + pose proof (char_at_some_lt _ _ _ Hd) as Hlt2.
        apply Nat.ltb_lt in Hlt2.
        eexists. split; [reflexivity|]. lexA_fields.
        cbn [to_str app]. cbn [to_str app] in E8. rewrite E7, E8.
        repeat split; auto; try lia; simpl List.length; lia.
      + apply operator_length in E8. simpl in E8. lia.
    - eexists. split; [reflexivity|]. lexA_fields.
      rewrite E7. repeat split; auto; try lia. }
  destruct (includes LexA.PUNCTUATIONS [c]) eqn:E9; [| discriminate].
  injection H as <-. eexists. split; [reflexivity|]. lexA_fields.
  rewrite E9. repeat split; auto; lia.
Qed.

Lemma lexA_iteration_invariant fuel code st st' :
  LexA.invariant code st ->
  LexA.current st < List.length code ->
  LexA.iteration fuel code st = Ok st' ->
  LexA.invariant code st'.
Proof.
  intros (Hle & Hp & Hl & Hk) Hlt H.
  destruct (char_at_lt _ _ Hlt) as [c Hc].
  destruct (lexA_iteration_step _ _ _ _ _ Hc H)
    as (t & Ht & Hcur & Hpl & Haf & Hli & Hln & Hkind).
  unfold LexA.invariant. rewrite Ht.
  split; [exact Hcur|]. split; [| split].
  - rewrite <- Haf. exact (chain_snoc _ _ _ t _ _ Hp Hpl).
  - rewrite <- Hln. exact (chain_snoc _ _ _ t _ _ Hl Hli).
  - rewrite forallb_app, Hk. simpl. now rewrite Hkind.
Qed.

Lemma lexA_tokenize_loop_invariant fuel code : forall st toks,
  LexA.tokenize_loop fuel code st = Ok toks ->
  LexA.invariant code st ->
  exists st',
    LexA.invariant code st' /\ LexA.tokens st' = toks
    /\ LexA.current st' = List.length code.
Proof.
  induction fuel as [| fuel IH]; intros st toks H Hinv; [discriminate|].
  simpl in H. destruct (LexA.current st <? List.length code) eqn:Hlt.
  - apply Nat.ltb_lt in Hlt.
    destruct (LexA.iteration fuel code st) as [st1 | e |] eqn:E;
      simpl in H; try discriminate.
    apply (IH st1 toks H).
    exact (lexA_iteration_invariant _ _ _ _ Hinv Hlt E).
  - apply Nat.ltb_ge in Hlt. injection H as <-. exists st.
    split; [exact Hinv|]. split; [reflexivity|].
    destruct Hinv as (Hle & _). lia.
Qed.

Lemma lexA_tokenize_invariant fuel code toks :
  LexA.tokenize fuel code = Ok toks ->
  exists st,
    LexA.invariant code st /\ LexA.tokens st = toks
    /\ LexA.current st = List.length code.
Proof.
  intros H. apply (lexA_tokenize_loop_invariant _ _ _ _ H).
  unfold LexA.invariant. simpl. repeat split; auto. lia.
Qed.

(** X6.  Every token of a run of the lexer of src/parser.js that returns
    holds what its type says: a NEWLINE token the newline, a WHITESPACE
    token one whitespace character that is no newline, a COMMENT token two
    slashes and then no newline, a NUMBER token a non-empty run of digits,
    a STRING token characters other than a quote followed by that quote, a
    KEYWORD token one of the keywords, an IDENTIFIER token a letter
    followed by letters and digits that is no keyword, an OPERATOR token
    one operator character or a two-character operator that starts with
    one, and a PUNCTUATION token one punctuation character. *)
Theorem lexA_token_kinds :
  forall (fuel : nat) (code : jsstring) (toks : list LexA.token),
    LexA.tokenize fuel code = Ok toks ->
    forallb LexA.kind_ok toks = true.
Proof.
  intros fuel code toks H.
  destruct (lexA_tokenize_invariant _ _ _ H)
    as (st & (_ & _ & _ & Hk) & <- & _).
  exact Hk.
Qed.

(** X7.  The lexer of src/parser.js never emits the operators [&&], [||]
    and [...], although they are in its table: an OPERATOR token starts
    with a character that is an operator by itself, and [&], [|] and [.]
    are not. *)
Theorem lexA_operators_never_emitted :
  forall (fuel : nat) (code : jsstring) (toks : list LexA.token)
         (t : LexA.token),
    LexA.tokenize fuel code = Ok toks ->
    In t toks ->
    LexA.type t = LexA.OPERATOR ->
    LexA.value t <> lit "&&" /\ LexA.value t <> lit "||"
    /\ LexA.value t <> lit "...".
Proof.
  intros fuel code toks t H Hin Hty.
  destruct (lexA_tokenize_invariant _ _ _ H)
    as (st & (_ & _ & _ & Hk) & <- & _).
  rewrite forallb_forall in Hk. specialize (Hk t Hin).
  unfold LexA.kind_ok in Hk. rewrite Hty in Hk.
  destruct (LexA.value t) as [| c [| d [| e rest]]]; try discriminate.
  - repeat split; discriminate.
  - apply andb_prop in Hk. destruct Hk as [Hc _].
    repeat split; intros Heq; injection Heq as -> ->; discriminate.
Qed.

(** X8.  How the lexer of src/parser.js places its tokens.  Read in order
    from offset 0 to the length of the source, every token starts at the
    offset of its first character, except a WHITESPACE or PUNCTUATION
    token, which ends there (its span lies one offset to the left); the
    next token's first character is at the end of the token before it, or
    one past that end after a WHITESPACE, PUNCTUATION or STRING token (the
    end of a STRING token is the offset of its closing quote). *)
Theorem lexA_spans_follow_cursor :
  forall (fuel : nat) (code : jsstring) (toks : list LexA.token),
    LexA.tokenize fuel code = Ok toks ->
    chain LexA.placed LexA.after 0%Z toks (Z.of_nat (List.length code)).
Proof.
  intros fuel code toks H.
  destruct (lexA_tokenize_invariant _ _ _ H)
    as (st & (_ & Hp & _) & <- & Hend).
  now rewrite <- Hend.
Qed.

(** X9.  The lines of the tokens of the lexer of src/parser.js count the
    NEWLINE tokens: a NEWLINE token carries the line of the token before
    it plus one (2 when it is the first token), any other token the line
    of the token before it (1 when it is the first).  A newline inside a
    string token is not counted. *)
Theorem lexA_lines_follow_newlines :
  forall (fuel : nat) (code : jsstring) (toks : list LexA.token),
    LexA.tokenize fuel code = Ok toks ->
    exists upto, chain LexA.lined LexA.line 1%Z toks upto.
Proof.
  intros fuel code toks H.
  destruct (lexA_tokenize_invariant _ _ _ H)
    as (st & (_ & _ & Hl & _) & <- & _).
  now exists (LexA.cur_line st).
Qed.

(** X10.  On a source that holds no quote character, every run of the
    lexer of src/parser.js that returns is lossless: the values of its
    tokens, in order, spell the source. *)
Theorem lexA_lossless_on_quote_free_sources :
  forall (fuel : nat) (code : jsstring) (toks : list LexA.token),
    LexA.quote_free code ->
    LexA.tokenize fuel code = Ok toks ->
    LexA.text toks = code.
Proof.
  intros fuel code toks Hq H.
  apply (lexA_tokenize_loop_lossless fuel code _ toks Hq H); simpl;
    [lia | reflexivity].
Qed.

(** X6 at the source [let x = 4 >= y; // c], a newline, ['s' ]. *)
Lemma lexA_token_kinds_witness :
  exists toks,
    LexA.tokenize 40 (lit "let x = 4 >= y; // c" ++ [NL] ++ lit "'s' ")
    = Ok toks
    /\ forallb LexA.kind_ok toks = true.
Proof.
  eexists. split; [vm_compute; reflexivity|].
  apply (lexA_token_kinds 40
           (lit "let x = 4 >= y; // c" ++ [NL] ++ lit "'s' ")).
  vm_compute. reflexivity.
Defined.

(** X7 at the same source and its token [>=]. *)
Lemma lexA_operators_never_emitted_witness :
  let t := {| LexA.type := LexA.OPERATOR; LexA.value := lit ">=";
              LexA.line := 1; LexA.start := 10; LexA.end_ := 12 |} in
  LexA.value t <> lit "&&" /\ LexA.value t <> lit "||"
  /\ LexA.value t <> lit "...".
Proof.
  intros t.
  refine (lexA_operators_never_emitted 40
            (lit "let x = 4 >= y; // c" ++ [NL] ++ lit "'s' ") _ t _ _
            eq_refl).
  - vm_compute. reflexivity.
  - simpl. tauto.
Defined.

(** X8 at the same source. *)
Lemma lexA_spans_follow_cursor_witness :
  exists toks,
    LexA.tokenize 40 (lit "let x = 4 >= y; // c" ++ [NL] ++ lit "'s' ")
    = Ok toks
    /\ chain LexA.placed LexA.after 0%Z toks
         (Z.of_nat
            (List.length
               (lit "let x = 4 >= y; // c" ++ [NL] ++ lit "'s' "))).
Proof.
  eexists. split; [vm_compute; reflexivity|].
  apply (lexA_spans_follow_cursor 40
           (lit "let x = 4 >= y; // c" ++ [NL] ++ lit "'s' ")).
  vm_compute. reflexivity.
Defined.

(** X9 at the same source. *)
Lemma lexA_lines_follow_newlines_witness :
  exists toks,
    LexA.tokenize 40 (lit "let x = 4 >= y; // c" ++ [NL] ++ lit "'s' ")
    = Ok toks
    /\ exists upto, chain LexA.lined LexA.line 1%Z toks upto.
Proof.
  eexists. split; [vm_compute; reflexivity|].
  apply (lexA_lines_follow_newlines 40
           (lit "let x = 4 >= y; // c" ++ [NL] ++ lit "'s' ")).
  vm_compute. reflexivity.
Defined.

(** X10 at the source [let x = 4 >= y; // c] followed by a newline. *)
Lemma lexA_lossless_on_quote_free_sources_witness :
  exists toks,
    LexA.tokenize 40 (lit "let x = 4 >= y; // c" ++ [NL]) = Ok toks
    /\ LexA.text toks = lit "let x = 4 >= y; // c" ++ [NL].
Proof.
  eexists. split; [vm_compute; reflexivity|].
  apply (lexA_lossless_on_quote_free_sources 40
           (lit "let x = 4 >= y; // c" ++ [NL])).
  - intros c Hin. simpl in Hin.
    repeat (destruct Hin as [<- | Hin]; [split; discriminate|]).
    contradiction.
  - vm_compute. reflexivity.
Defined.

(** ** The parser of src/parser.js (the [walk] variant) *)

Section WalkBounds.

Variable tokens : list LexA.token.

Lemma read_lt property current t :
  ParseA.read tokens property current = Ok t ->
  nth_error tokens current = Some t /\ current < List.length tokens.
Proof.
  unfold ParseA.read.
  destruct (nth_error tokens current) as [x |] eqn:E; [| discriminate].
  intros H. injection H as ->. split; [reflexivity|].
  apply nth_error_Some. now rewrite E.
Qed.

Lemma at_is_lt ty v current :
  ParseA.at_is tokens ty v current = true ->
  current < List.length tokens.
Proof.
  unfold ParseA.at_is. intros H. apply andb_prop in H.
  destruct H as [H _]. now apply Nat.ltb_lt.
Qed.

Lemma skip_loop_none fuel : forall w current current',
  nth_error tokens current = Some w ->
  ParseA.skip_loop tokens fuel w current = Ok (None, current') ->
  current < current' /\ current' = List.length tokens.
Proof.
  induction fuel as [| fuel IH]; intros w current current' Hw H;
    [discriminate|].
  assert (Hlt : current < List.length tokens)
    by (apply nth_error_Some; now rewrite Hw).
  simpl in H. destruct (ParseA.skippable w); [| discriminate].
  destruct (Nat.leb_spec (List.length tokens) (S current)) as [Hge | Hlt2].
  - injection H as <-. lia.
  - destruct (ParseA.read tokens "type" (S current)) as [w1 | e |] eqn:E;
      simpl in H; try discriminate.
    apply read_lt in E. destruct E as [E _].
    destruct (IH _ _ _ E H). lia.
Qed.

Section Loops.

Variable walk : nat -> result (option ParseA.node * nat).
Hypothesis walk_bounds : forall c r c',
  c <= List.length tokens -> walk c = Ok (r, c') ->
  c <= c' <= List.length tokens /\ (r <> None -> c < c').

Lemma params_loop_bounds fuel : forall params current ps current',
  ParseA.params_loop tokens walk fuel params current = Ok (ps, current') ->
  current <= current' < List.length tokens.
Proof.
  induction fuel as [| fuel IH]; intros params current ps current' H;
    [discriminate|].
  simpl in H.
  destruct (ParseA.read tokens "type" current) as [t | e |] eqn:E;
    simpl in H; try discriminate.
  apply read_lt in E. destruct E as [_ E].
  destruct (negb (ParseA.is_tok LexA.PUNCTUATION ")" t)).
  - destruct (walk current) as [[n c1] | e |] eqn:Ew; simpl in H;
      try discriminate.
    destruct (walk_bounds current n c1 ltac:(lia) Ew) as [B _].
    destruct (ParseA.read tokens "type" c1) as [t1 | e |] eqn:E1;
      simpl in H; try discriminate.
    apply read_lt in E1. destruct E1 as [_ E1].
    apply IH in H. destruct (ParseA.is_tok LexA.PUNCTUATION "," t1); lia.
  - injection H as <- <-. lia.
Qed.

Lemma body_loop_bounds fuel : forall body token current r current',
  ParseA.body_loop tokens walk fuel body token current = Ok (r, current') ->
  current <= current' <= List.length tokens
  /\ (r <> None -> current' < List.length tokens).
Proof.
  induction fuel as [| fuel IH]; intros body token current r current' H;
    [discriminate|].
  simpl in H.
  destruct (ParseA.read tokens "type" current) as [t | e |] eqn:E;
    simpl in H; try discriminate.
  apply read_lt in E. destruct E as [_ E].
  destruct (negb (ParseA.is_tok LexA.PUNCTUATION "}" t)).
  - destruct (walk current) as [[n c1] | e |] eqn:Ew; simpl in H;
      try discriminate.
    destruct (walk_bounds current n c1 ltac:(lia) Ew) as [B _].
    destruct (Nat.leb_spec (List.length tokens) c1).
    + injection H as <- <-. split; [lia | intros Hne; now elim Hne].
    + destruct (ParseA.read tokens "type" c1) as [t1 | e |] eqn:E1;
        simpl in H; try discriminate.
      apply IH in H. destruct H as [H1 H2]. split; [lia | exact H2].
  - injection H as <- <-. split; [lia | intros _; lia].
Qed.

Lemma walk_token_bounds fuel t i r current' :
  i < List.length tokens ->
  ParseA.walk_token tokens walk fuel t i = Ok (r, current') ->
  i <= current' <= List.length tokens /\ (r <> None -> i < current').
Proof.
  intros Hi H. unfold ParseA.walk_token in H.
  destruct (LexA.type t);
    repeat match type of H with
           | (if ?b then _ else _) = Ok _ =>
               let E := fresh "E" in destruct b eqn:E
           | bind ?x _ = Ok _ =>
               let E := fresh "E" in
               destruct x as [[? ?] | ? |] eqn:E; cbn [bind] in H;
               [| discriminate H ..]
           | match ?x with Some _ => _ | None => _ end = Ok _ => destruct x
           | (let '(_, _) := ?x in _) = Ok _ => destruct x
           end;
    injection H as <- <-;
    repeat match goal with
           | E : (if ?b then _ else _) = Ok _ |- _ =>
               let Eb := fresh "E" in destruct b eqn:Eb;
               [| injection E as <- <-]
           | |- context [if ParseA.at_is tokens ?a ?b ?c then _ else _] =>
               let Eb := fresh "E" in
               destruct (ParseA.at_is tokens a b c) eqn:Eb
           | E : ParseA.at_is tokens _ _ _ = true |- _ =>
               apply at_is_lt in E
           | E : walk ?a = Ok (?o, ?n) |- _ =>
               let B := fresh "B" in
               pose proof (walk_bounds a o n ltac:(lia) E) as B; clear E
           | E : ParseA.params_loop tokens walk _ _ _ = Ok _ |- _ =>
               apply params_loop_bounds in E
           | E : ParseA.body_loop tokens walk _ _ _ _ = Ok _ |- _ =>
               apply body_loop_bounds in E
           | B : _ /\ _ |- _ => destruct B
           | B : Some _ <> None -> _ |- _ =>
               specialize (B ltac:(discriminate))
           end;
    (split; [lia | first [intros _; lia | intros Hne; now elim Hne]]).
Qed.

End Loops.

Lemma walk_bounds_aux fuel : forall current r current',
  current <= List.length tokens ->
  ParseA.walk tokens fuel current = Ok (r, current') ->
  current <= current' <= List.length tokens
  /\ (r <> None -> current < current').
Proof.
  induction fuel as [| fuel IH]; intros current r current' Hle H;
    [discriminate|].
  simpl in H.
  destruct (Nat.leb_spec (List.length tokens) current) as [Hge | Hlt].
  - injection H as <- <-. split; [lia | intros Hne; now elim Hne].
  - destruct (ParseA.read tokens "type" current) as [w | e |] eqn:E;
      simpl in H; try discriminate.
    apply read_lt in E. destruct E as [Hw _].
    destruct (ParseA.skip_loop tokens fuel w current)
      as [[[t |] i] | e |] eqn:Hskip; cbn [bind] in H; try discriminate.
    + destruct (skip_loop_inv tokens fuel w current t i Hw Hskip)
        as (Hci & Ht & _).
      assert (Hi : i < List.length tokens)
        by (apply nth_error_Some; now rewrite Ht).
      destruct (walk_token_bounds _ IH fuel t i r current' Hi H)
        as [B1 B2].
      split; [lia | intros Hne; specialize (B2 Hne); lia].
    + injection H as <- <-.
      destruct (skip_loop_none _ _ _ _ Hw Hskip).
      split; [lia | intros Hne; now elim Hne].
Qed.

End WalkBounds.

(** X12.  [walk] keeps the cursor inside the token list and never moves
    it back: called at or before the end of the stream, it leaves the
    cursor at or after where it was and at most at the end; when it
    returns a node it has consumed at least one token. *)
Theorem walk_cursor_bounds :
  forall (tokens : list LexA.token) (fuel current : nat)
         (r : option ParseA.node) (current' : nat),
    current <= List.length tokens ->
    ParseA.walk tokens fuel current = Ok (r, current') ->
    current <= current' <= List.length tokens
    /\ (r <> None -> current < current').
Proof.
  intros tokens fuel current r current' Hle H.
  exact (walk_bounds_aux tokens fuel current r current' Hle H).
Qed.

(** X13.  Whitespace, newline and comment tokens before a construct
    change nothing: called on them, [walk] returns what it returns when
    called on the first token after them. *)
Theorem walk_skips_leading_tokens :
  forall (tokens : list LexA.token) (fuel current i : nat)
         (t : LexA.token),
    ParseA.leading tokens current i t ->
    i - current < fuel ->
    ParseA.walk tokens (S fuel) current = ParseA.walk tokens (S fuel) i.
Proof.
  intros tokens fuel current i t (Hle & Ht & Hns & Hskip) Hf.
  rewrite (walk_skip_to tokens fuel current i t); auto.
  rewrite (walk_skip_to tokens fuel i i t); auto; [| lia].
  intros j Hj. lia.
Qed.

(** X14.  The prefix form of a binary expression: when the first token
    that is not skipped is an operator and the next two tokens that are
    not skipped are each a number, a string or an identifier, [walk]
    returns the [BinaryExpression] of that operator with the two operands
    as [left] and [right], and leaves the cursor after the second
    operand. *)
Theorem walk_binary_expression :
  forall (tokens : list LexA.token) (fuel current i j k : nat)
         (op a b : LexA.token),
    ParseA.leading tokens current i op ->
    LexA.type op = LexA.OPERATOR ->
    ParseA.leading tokens (S i) j a ->
    ParseA.operand a = true ->
    ParseA.leading tokens (S j) k b ->
    ParseA.operand b = true ->
    k + 2 <= fuel ->
    ParseA.walk tokens fuel current
    = Ok (Some (ParseA.BinaryExpression (LexA.value op) (ParseA.leaf a)
                  (ParseA.leaf b) (ParseA.span_of op)), S k).
Proof.
  intros tokens fuel current i j k op a b
    (Hi & Hop & Hnop & Hs0) Hty (Hj & Ha & Hna & Hs1) Hoa
    (Hk & Hb & Hnb & Hs2) Hob Hf.
  destruct fuel as [| [| fuel]]; try lia.
  rewrite (walk_skip_to tokens (S fuel) current i op); auto; [| lia].
  unfold ParseA.walk_token. rewrite Hty.
  rewrite (walk_skip_to tokens fuel (S i) j a); auto; [| lia].
  rewrite walk_token_operand by exact Hoa. cbn [bind].
  rewrite (walk_skip_to tokens fuel (S j) k b); auto; [| lia].
  rewrite walk_token_operand by exact Hob. reflexivity.
Qed.

Lemma walk_token_unhandled tokens walk fuel t i :
  ParseA.unhandled t = true ->
  ParseA.walk_token tokens walk fuel t i = Ok (None, i).
Proof.
  intros Hun.
  unfold ParseA.walk_token, ParseA.unhandled, ParseA.is_tok in *.
  destruct (LexA.type t); try discriminate; simpl in *.
  - apply negb_true_iff in Hun.
    repeat (apply orb_false_elim in Hun; destruct Hun as [-> Hun]).
    reflexivity.
  - apply negb_true_iff in Hun.
    apply orb_false_elim in Hun. destruct Hun as [-> Hun].
    unfold includes, ParseA.skipPunctuation. simpl. now rewrite Hun.
Qed.

Lemma unhandled_not_skippable t :
  ParseA.unhandled t = true -> ParseA.skippable t = false.
Proof.
  unfold ParseA.unhandled, ParseA.skippable.
  destruct (LexA.type t); try discriminate; reflexivity.
Qed.

(** X15.  [parse] never returns once its top-level loop reaches a token no
    rule of [walk] handles (a keyword other than [return], [const] and
    [function]; a closing brace, a dot or a bracket): [walk] returns
    [null] with the cursor on that token, again and again.  The keywords
    [let], [var] and [if] are such tokens. *)
Theorem parse_stops_at_unhandled_token :
  forall (tokens : list LexA.token) (current i : nat) (t : LexA.token),
    ParseA.leading tokens current i t ->
    ParseA.unhandled t = true ->
    forall (fuel : nat) (body : list ParseA.node),
      ParseA.parse_loop tokens fuel body current = OutOfFuel
      /\ (current = 0 -> ParseA.parse tokens fuel = OutOfFuel).
Proof.
  intros tokens current i t (Hle & Ht & Hns & Hskip) Hun.
  assert (Hi : i < List.length tokens)
    by (apply nth_error_Some; now rewrite Ht).
  assert (Hbig : ParseA.walk tokens (S (S (i - current))) current
                 = Ok (None, i)).
  { rewrite (walk_skip_to tokens (S (i - current)) current i t); auto.
    now apply walk_token_unhandled. }
  assert (Hw : forall f,
    fuel_le (ParseA.walk tokens f current) (Ok (None, i))).
  { intros f. rewrite <- Hbig.
    destruct (Nat.le_ge_cases f (S (S (i - current)))) as [Hf | Hf].
    - now apply walk_mono.
    - right. apply fuel_le_defined; [now apply walk_mono|].
      rewrite Hbig. discriminate. }
  assert (Hloop : forall fuel body,
    ParseA.parse_loop tokens fuel body current = OutOfFuel).
  { intros [| fuel] body; [reflexivity|]. simpl.
    destruct (Nat.ltb_spec current (List.length tokens)); [| lia].
    destruct (Hw fuel) as [-> | ->]; [reflexivity|]. simpl.
    apply parse_loop_stuck; [exact Hi|].
    intros f. now apply (walk_unhandled tokens f i t). }
  intros fuel body. split; [apply Hloop|].
  intros ->. unfold ParseA.parse.
  destruct (ParseA.read tokens "line" 0) as [first | e |] eqn:E1;
    [| unfold ParseA.read in E1;
       destruct (nth_error tokens 0) eqn:E0;
       [discriminate | apply nth_error_None in E0; lia]
     | unfold ParseA.read in E1; destruct (nth_error tokens 0); discriminate].
  simpl.
  destruct (ParseA.read tokens "end" (List.length tokens - 1))
    as [last | e |] eqn:E2;
    [| unfold ParseA.read in E2;
       destruct (nth_error tokens (List.length tokens - 1)) eqn:E0;
       [discriminate | apply nth_error_None in E0; lia]
     | unfold ParseA.read in E2;
       destruct (nth_error tokens (List.length tokens - 1)); discriminate].
  simpl. now rewrite Hloop.
Qed.

Lemma body_loop_closed tokens walk fuel :
  forall body token current b tk current',
    ParseA.body_loop tokens walk fuel body token current
    = Ok (Some (b, tk), current') ->
    exists t,
      nth_error tokens current' = Some t
      /\ ParseA.is_tok LexA.PUNCTUATION "}" t = true
      /\ ((b = body /\ tk = token /\ current' = current)
          \/ (List.length body < List.length b /\ tk = t)).
Proof.
  induction fuel as [| fuel IH]; intros body token current b tk current' H;
    [discriminate|].
  simpl in H.
  destruct (ParseA.read tokens "type" current) as [t | e |] eqn:E;
    simpl in H; try discriminate.
  apply read_lt in E. destruct E as [E _].
  destruct (ParseA.is_tok LexA.PUNCTUATION "}" t) eqn:Hclose; simpl in H.
  - injection H as <- <- <-. exists t.
    split; [exact E | split; [exact Hclose | left; auto]].
  - destruct (walk current) as [[n c1] | e |]; simpl in H; try discriminate.
    destruct (List.length tokens <=? c1); [discriminate|].
    destruct (ParseA.read tokens "type" c1) as [t1 | e |] eqn:E1;
      simpl in H; try discriminate.
    apply read_lt in E1. destruct E1 as [E1 _].
    destruct (IH _ _ _ _ _ _ H) as (t' & Ht' & Hc' & Hcase).
    exists t'. split; [exact Ht' | split; [exact Hc' | right]].
    destruct Hcase as [(-> & -> & ->) | (Hlen & ->)].
    + rewrite length_app. simpl. split; [lia | congruence].
    + rewrite length_app in Hlen. simpl in Hlen. split; [lia | reflexivity].
Qed.

(** X16.  A [BlockStatement] or [FunctionDeclaration] that [walk] returns
    is closed: the last token consumed is a closing brace.  When its body
    list is not empty, its [line], [start] and [end] are those of that
    closing brace (the body loop reassigns [token]), so the node starts
    where it ends. *)
Theorem walk_block_ends_at_closing_brace :
  forall (tokens : list LexA.token) (fuel current : nat)
         (n : ParseA.node) (current' : nat),
    ParseA.walk tokens fuel current = Ok (Some n, current') ->
    forall body s,
      (n = ParseA.BlockStatement body s
       \/ exists id params, n = ParseA.FunctionDeclaration id params body s) ->
      exists t i,
        current' = S i
        /\ nth_error tokens i = Some t
        /\ ParseA.is_tok LexA.PUNCTUATION "}" t = true
        /\ (body <> [] -> s = ParseA.span_of t).
Proof.
  intros tokens fuel current n current' H body s Hn.
  destruct fuel as [| fuel]; [discriminate|]. simpl in H.
  destruct (List.length tokens <=? current); [discriminate|].
  destruct (ParseA.read tokens "type" current) as [w | e |];
    cbn [bind] in H; try discriminate.
  destruct (ParseA.skip_loop tokens fuel w current)
    as [[[t |] i] | e |]; cbn [bind] in H; try discriminate.
  unfold ParseA.walk_token in H.
  assert (Hfin : forall b tk c0 c1 (mk : list (option ParseA.node) ->
                                         ParseA.span -> ParseA.node),
    ParseA.body_loop tokens (ParseA.walk tokens fuel) fuel [] t c0
    = Ok (Some (b, tk), c1) ->
    Some (mk b (ParseA.span_of tk), S c1) = Some (mk body s, current') ->
    (forall b1 s1 b2 s2, mk b1 s1 = mk b2 s2 -> b1 = b2 /\ s1 = s2) ->
    exists t0 i0,
      current' = S i0 /\ nth_error tokens i0 = Some t0
      /\ ParseA.is_tok LexA.PUNCTUATION "}" t0 = true
      /\ (body <> [] -> s = ParseA.span_of t0)).
  { intros b tk c0 c1 mk Hb Heq Hinj. injection Heq as Heq <-.
    apply Hinj in Heq. destruct Heq as [-> <-].
    destruct (body_loop_closed _ _ _ _ _ _ _ _ _ Hb)
      as (t0 & Ht0 & Hc0 & Hcase).
    exists t0, c1. repeat split; auto.
    intros Hne. destruct Hcase as [(-> & _) | (_ & ->)];
      [now elim Hne | reflexivity]. }
  destruct (LexA.type t);
    repeat match type of H with
           | (if ?b then _ else _) = Ok _ => destruct b
           | bind ?x _ = Ok _ =>
               let E := fresh "E" in
               destruct x as [[? ?] | ? |] eqn:E; cbn [bind] in H;
               [| discriminate H ..]
           | match ?x with Some _ => _ | None => _ end = Ok _ => destruct x
           | (let '(_, _) := ?x in _) = Ok _ => destruct x
           end;
    try discriminate;
    injection H as H Hc;
    destruct Hn as [-> | (id & ps & ->)]; try discriminate;
    match goal with
    | E : ParseA.body_loop _ _ _ _ _ _ = Ok _ |- _ =>
        first
          [ apply (Hfin _ _ _ _ (fun b s => ParseA.BlockStatement b s) E);
            [congruence | intros b1 s1 b2 s2 Hm; now injection Hm]
          | apply (Hfin _ _ _ _
                     (fun b s => ParseA.FunctionDeclaration id ps b s) E);
            [congruence | intros b1 s1 b2 s2 Hm; now injection Hm] ]
    end.
Qed.

(** X17.  Where the [line], [start] and [end] of a node come from: every
    node [walk] returns is built on its leading token, the first token at
    or after the cursor that is not skipped.  A [Literal] or [Identifier]
    carries the value and the span of that token, the only one it
    consumes; a [BinaryExpression] carries the value and the span of its
    operator token, a [ReturnStatement] and a [VariableDeclaration] the
    span of their keyword, whatever they consume after it; the leading
    token of a [FunctionDeclaration] is the keyword [function] and that of
    a [BlockStatement] an opening brace. *)
Theorem walk_node_carries_leading_token :
  forall (tokens : list LexA.token) (fuel current : nat)
         (n : ParseA.node) (current' : nat),
    ParseA.walk tokens fuel current = Ok (Some n, current') ->
    exists i t,
      ParseA.leading tokens current i t
      /\ match n with
         | ParseA.Literal v s | ParseA.Identifier v s =>
             s = ParseA.span_of t /\ v = LexA.value t /\ current' = S i
             /\ ParseA.spans_consumed tokens i i n
         | ParseA.BinaryExpression o _ _ s =>
             s = ParseA.span_of t /\ o = LexA.value t
             /\ LexA.type t = LexA.OPERATOR
         | ParseA.ReturnStatement _ s =>
             s = ParseA.span_of t
             /\ ParseA.is_tok LexA.KEYWORD "return" t = true
         | ParseA.VariableDeclaration _ _ s =>
             s = ParseA.span_of t
             /\ ParseA.is_tok LexA.KEYWORD "const" t = true
         | ParseA.FunctionDeclaration _ _ _ _ =>
             ParseA.is_tok LexA.KEYWORD "function" t = true
         | ParseA.BlockStatement _ _ =>
             ParseA.is_tok LexA.PUNCTUATION "{" t = true
         end.
Proof.
  intros tokens fuel current n current' H.
  exact (walk_span_is_leading_token tokens fuel current n current' H).
Qed.

(** X12 at the tokens of [+ 1 2;], from cursor 0. *)
Lemma walk_cursor_bounds_witness :
  exists toks r current',
    LexA.tokenize 9 (lit "+ 1 2;") = Ok toks
    /\ ParseA.walk toks 9 0 = Ok (r, current')
    /\ (0 <= current' <= List.length toks /\ (r <> None -> 0 < current')).
Proof.
  eexists. eexists. eexists.
  split; [vm_compute; reflexivity|].
  split; [vm_compute; reflexivity|].
  apply (walk_cursor_bounds _ 9 0); [simpl; lia | vm_compute; reflexivity].
Defined.

(** X13 at the tokens of [+ 1 2;]: the whitespace at index 1 before the
    number at index 2. *)
Lemma walk_skips_leading_tokens_witness :
  exists toks,
    LexA.tokenize 9 (lit "+ 1 2;") = Ok toks
    /\ ParseA.walk toks 3 1 = ParseA.walk toks 3 2.
Proof.
  eexists. split; [vm_compute; reflexivity|].
  apply (walk_skips_leading_tokens _ 2 1 2
           {| LexA.type := LexA.NUMBER; LexA.value := lit "1";
              LexA.line := 1; LexA.start := 2; LexA.end_ := 3 |});
    [| lia].
  repeat split; try lia.
  intros j Hj. assert (j = 1) as -> by lia. reflexivity.
Defined.

(** X14 at the tokens of [+ 1 2;]. *)
Lemma walk_binary_expression_witness :
  exists toks,
    LexA.tokenize 9 (lit "+ 1 2;") = Ok toks
    /\ ParseA.walk toks 6 0
       = Ok (Some (ParseA.BinaryExpression (lit "+")
                     (ParseA.Literal (lit "1")
                        {| ParseA.line := 1; ParseA.start := 2;
                           ParseA.end_ := 3 |})
                     (ParseA.Literal (lit "2")
                        {| ParseA.line := 1; ParseA.start := 4;
                           ParseA.end_ := 5 |})
                     {| ParseA.line := 1; ParseA.start := 0;
                        ParseA.end_ := 1 |}), 5).
Proof.
  eexists. split; [vm_compute; reflexivity|].
  apply (walk_binary_expression _ 6 0 0 2 4
           {| LexA.type := LexA.OPERATOR; LexA.value := lit "+";
              LexA.line := 1; LexA.start := 0; LexA.end_ := 1 |}
           {| LexA.type := LexA.NUMBER; LexA.value := lit "1";
              LexA.line := 1; LexA.start := 2; LexA.end_ := 3 |}
           {| LexA.type := LexA.NUMBER; LexA.value := lit "2";
              LexA.line := 1; LexA.start := 4; LexA.end_ := 5 |});
    try reflexivity; try lia.
  - repeat split; try lia.
  - repeat split; try lia.
    intros j Hj. assert (j = 1) as -> by lia. reflexivity.
  - repeat split; try lia.
    intros j Hj. assert (j = 3) as -> by lia. reflexivity.
Defined.

(** X15 at the tokens of [let x;]. *)
Lemma parse_stops_at_unhandled_token_witness :
  exists toks,
    LexA.tokenize 9 (lit "let x;") = Ok toks
    /\ ParseA.parse_loop toks 5 [] 0 = OutOfFuel
    /\ (0 = 0 -> ParseA.parse toks 5 = OutOfFuel).
Proof.
  eexists. split; [vm_compute; reflexivity|].
  apply (parse_stops_at_unhandled_token _ 0 0
           {| LexA.type := LexA.KEYWORD; LexA.value := lit "let";
              LexA.line := 1; LexA.start := 0; LexA.end_ := 3 |});
    [| reflexivity].
  repeat split; try lia.
Defined.

(** X16 at the tokens of [{ x }]. *)
Lemma walk_block_ends_at_closing_brace_witness :
  exists toks body s,
    LexA.tokenize 9 (lit "{ x }") = Ok toks
    /\ ParseA.walk toks 9 0 = Ok (Some (ParseA.BlockStatement body s), 5)
    /\ exists t i,
         5 = S i /\ nth_error toks i = Some t
         /\ ParseA.is_tok LexA.PUNCTUATION "}" t = true
         /\ (body <> [] -> s = ParseA.span_of t).
Proof.
  eexists. eexists. eexists.
  split; [vm_compute; reflexivity|].
  split; [vm_compute; reflexivity|].
  eapply (walk_block_ends_at_closing_brace _ 9 0);
    [vm_compute; reflexivity | left; reflexivity].
Defined.

(** X17 at the tokens of [+ 1 2;], from cursor 0. *)
Lemma walk_node_carries_leading_token_witness :
  exists toks n,
    LexA.tokenize 9 (lit "+ 1 2;") = Ok toks
    /\ ParseA.walk toks 9 0 = Ok (Some n, 5)
    /\ exists i t,
         ParseA.leading toks 0 i t
         /\ ParseA.node_span n = ParseA.span_of t
         /\ LexA.type t = LexA.OPERATOR.
Proof.
  eexists. eexists.
  split; [vm_compute; reflexivity|].
  split; [vm_compute; reflexivity|].
  match goal with
  | |- exists i t, ParseA.leading ?toks _ i t
                   /\ ParseA.node_span ?n = _ /\ _ =>
      destruct (walk_node_carries_leading_token toks 9 0 n 5)
        as (i & t & Hlead & Hs & _ & Hty); [vm_compute; reflexivity|]
  end.
  exists i, t. split; [exact Hlead|]. split; [| exact Hty].
  simpl. exact Hs.
Defined.

(** ** The second parser of src/parser.js *)

Section ParseBFacts.

Variable tokens : list LexB.token.

Lemma peek_lt property current :
  current < List.length tokens ->
  exists t,
    nth_error tokens current = Some t
    /\ ParseB.peek tokens property current = Ok t.
Proof.
  intros H. unfold ParseB.peek.
  destruct (nth_error tokens current) as [t |] eqn:E; [eauto|].
  apply nth_error_None in E. lia.
Qed.

(** The lexer of part_000 names its newline tokens [Newline]; the parser
    tests for [NewLine], which no token is. *)
Lemma type_is_NewLine t : ParseB.type_is "NewLine" t = false.
Proof. unfold ParseB.type_is. now destruct (LexB.type t). Qed.

Lemma type_is_Punctuation t :
  ParseB.type_is "Punctuation" t = true <-> LexB.type t = LexB.Punctuation.
Proof.
  unfold ParseB.type_is. destruct (LexB.type t); simpl; split;
    intros H; try discriminate; reflexivity.
Qed.

(** What the collecting loop of a statement has done when it returns. *)
Lemma collect_spec fuel : forall acc current ts current',
  ParseB.collect tokens fuel acc current = Ok (ts, current') ->
  current <= List.length tokens ->
  exists seg,
    ts = acc ++ seg
    /\ current' = current + List.length seg
    /\ current' <= List.length tokens
    /\ (forall k, k < List.length seg ->
                  nth_error seg k = nth_error tokens (current + k))
    /\ forallb (fun t => negb (ParseB.type_is "Punctuation" t)) seg = true
    /\ (current' = List.length tokens
        \/ exists t, nth_error tokens current' = Some t
                     /\ LexB.type t = LexB.Punctuation).
Proof.
  induction fuel as [| fuel IH]; intros acc current ts current' H Hle;
    [discriminate|].
  simpl in H.
  destruct (Nat.ltb_spec current (List.length tokens)) as [Hlt | Hge].
  - destruct (peek_lt "type" current Hlt) as (t & Ht & Hp).
    rewrite Hp in H. cbn [bind] in H.
    rewrite type_is_NewLine, andb_true_r in H.
    destruct (ParseB.type_is "Punctuation" t) eqn:Hpunct; cbn [negb] in H.
    + injection H as <- <-. exists []. rewrite app_nil_r, Nat.add_0_r.
      repeat split; auto; try lia.
      * intros k Hk. simpl in Hk. lia.
      * right. exists t. split; [exact Ht|].
        now apply type_is_Punctuation.
    + destruct (IH _ _ _ _ H ltac:(lia))
        as (seg & -> & -> & Hb & Hnth & Hall & Hstop).
      exists (t :: seg). rewrite <- app_assoc. simpl.
      rewrite Hpunct, Hall.
      replace (current + S (List.length seg))
        with (S current + List.length seg) by lia.
      repeat split; auto.
      intros [| k] Hk.
      * now rewrite Nat.add_0_r.
      * simpl. rewrite Hnth by lia. f_equal. lia.
  - injection H as <- <-. exists []. rewrite app_nil_r, Nat.add_0_r.
    repeat split; auto; try lia.
    intros k Hk. simpl in Hk. lia.
Qed.

Lemma collect_total fuel : forall acc current,
  List.length tokens - current < fuel ->
  exists r, ParseB.collect tokens fuel acc current = Ok r.
Proof.
  induction fuel as [| fuel IH]; intros acc current Hf; [lia|].
  simpl.
  destruct (Nat.ltb_spec current (List.length tokens)) as [Hlt | Hge];
    [| eauto].
  destruct (peek_lt "type" current Hlt) as (t & _ & ->). cbn [bind].
  destruct (negb (ParseB.type_is "Punctuation" t)
            && negb (ParseB.type_is "NewLine" t)); [| eauto].
  apply IH. lia.
Qed.

Lemma collect_no_throw fuel : forall acc current e,
  ParseB.collect tokens fuel acc current <> Throw e.
Proof.
  induction fuel as [| fuel IH]; intros acc current e; [discriminate|].
  simpl.
  destruct (Nat.ltb_spec current (List.length tokens)) as [Hlt | Hge];
    [| discriminate].
  destruct (peek_lt "type" current Hlt) as (t & _ & ->). cbn [bind].
  destruct (negb (ParseB.type_is "Punctuation" t)
            && negb (ParseB.type_is "NewLine" t)); [apply IH | discriminate].
Qed.

Lemma parse_loop_no_throw fuel : forall body current e,
  ParseB.parse_loop tokens fuel body current <> Throw e.
Proof.
  induction fuel as [| fuel IH]; intros body current e; [discriminate|].
  simpl.
  destruct (Nat.ltb_spec current (List.length tokens)) as [Hlt | Hge];
    [| discriminate].
  destruct (peek_lt "type" current Hlt) as (t & _ & ->). cbn [bind].
  destruct (ParseB.type_is "Whitespace" t || ParseB.type_is "NewLine" t);
    [apply IH|].
  unfold ParseB.parseExpressionStatement.
  destruct (peek_lt "range" current Hlt) as (t' & _ & ->). cbn [bind].
  destruct (ParseB.collect tokens fuel [] current) as [[ts c] | e' |] eqn:E;
    cbn [bind].
  - match goal with
    | |- (if ?b then _ else _) <> _ => destruct b; apply IH
    end.
  - now elim (collect_no_throw fuel [] current e').
  - discriminate.
Qed.

End ParseBFacts.

(** X18.  The second parser never throws, whatever the token list: every
    read of [tokens[current]] is guarded by [current < tokens.length], and
    the reads that build the [Program] by [tokens.length ? ... : ...]. *)
Theorem parseB_never_throws :
  forall (tokens : list LexB.token) (fuel : nat) (e : exn),
    ParseB.parse tokens fuel <> Throw e.
Proof.
  intros tokens fuel e. unfold ParseB.parse.
  destruct (ParseB.parse_loop tokens fuel [] 0) as [b | e' |] eqn:E;
    cbn [bind]; try discriminate.
  now elim (parse_loop_no_throw tokens fuel [] 0 e').
Qed.

(** X19.  What an [ExpressionStatement] of the second parser holds: the
    longest run of tokens from the cursor that are not punctuation.  The
    run stops at a punctuation token or at the end of the stream and at
    nothing else (a Newline token does not stop it); the statement's
    range starts where the token at the cursor starts and ends where the
    last token of the run ends, or where the token at the cursor ends
    when the run is empty. *)
Theorem parseB_statement_is_a_maximal_run :
  forall (tokens : list LexB.token) (fuel current : nat)
         (stmt : ParseB.statement) (current' : nat),
    current < List.length tokens ->
    ParseB.parseExpressionStatement tokens fuel current
    = Ok (stmt, current') ->
    current <= current' <= List.length tokens
    /\ List.length (ParseB.stmt_tokens stmt) = current' - current
    /\ (forall k, k < current' - current ->
          nth_error (ParseB.stmt_tokens stmt) k
          = nth_error tokens (current + k))
    /\ (forall t, In t (ParseB.stmt_tokens stmt) ->
                  LexB.type t <> LexB.Punctuation)
    /\ (current' = List.length tokens
        \/ exists t, nth_error tokens current' = Some t
                     /\ LexB.type t = LexB.Punctuation)
    /\ exists first closing,
         nth_error tokens current = Some first
         /\ nth_error tokens
              (if current' =? current then current else current' - 1)
            = Some closing
         /\ ParseB.stmt_range stmt
            = (fst (LexB.range first), snd (LexB.range closing)).
Proof.
  intros tokens fuel current stmt current' Hlt H.
  unfold ParseB.parseExpressionStatement in H.
  destruct (peek_lt tokens "range" current Hlt) as (first & Hfirst & Hp).
  rewrite Hp in H. cbn [bind] in H.
  destruct (ParseB.collect tokens fuel [] current) as [[ts c] | e |] eqn:E;
    cbn [bind] in H; try discriminate.
  injection H as <- <-.
  destruct (collect_spec tokens fuel [] current ts c E ltac:(lia))
    as (seg & Hts & -> & Hb & Hnth & Hall & Hstop).
  simpl in Hts. subst ts. cbn [ParseB.stmt_tokens ParseB.stmt_range].
  replace (current + List.length seg - current) with (List.length seg)
    by lia.
  split; [lia|]. split; [reflexivity|]. split; [exact Hnth|].
  split; [| split; [exact Hstop|]].
  - intros t Hin Hty. rewrite forallb_forall in Hall.
    specialize (Hall t Hin). apply negb_true_iff in Hall.
    apply type_is_Punctuation in Hty. congruence.
  - exists first.
    destruct (nth_error seg (List.length seg - 1)) as [lst |] eqn:Hl.
    + exists lst.
      assert (Hpos : 0 < List.length seg).
      { destruct seg; [destruct (0 - 1); discriminate | simpl; lia]. }
      destruct (Nat.eqb_spec (current + List.length seg) current); [lia|].
      split; [exact Hfirst|]. split; [| reflexivity].
      rewrite <- Hl, Hnth by lia. f_equal. lia.
    + exists first.
      assert (Hz : List.length seg = 0).
      { apply nth_error_None in Hl. lia. }
      rewrite Hz, Nat.add_0_r, Nat.eqb_refl. auto.
Qed.

(** The top-level loop of the second parser cannot get past a punctuation
    token other than the semicolon: from every cursor at or before it the
    loop reaches it and stays there. *)
Lemma parseB_parse_loop_diverges tokens k t :
  nth_error tokens k = Some t ->
  LexB.type t = LexB.Punctuation ->
  LexB.value t <> lit ";" ->
  forall fuel body current,
    current <= k ->
    ParseB.parse_loop tokens fuel body current = OutOfFuel.
Proof.
  intros Ht Hty Hv.
  assert (Hk : k < List.length tokens).
  { apply nth_error_Some. now rewrite Ht. }
  induction fuel as [| fuel IH]; intros body current Hle; [reflexivity|].
  simpl.
  destruct (Nat.ltb_spec current (List.length tokens)) as [Hlt | Hge];
    [| lia].
  destruct (peek_lt tokens "type" current Hlt) as (t0 & Ht0 & ->).
  cbn [bind]. rewrite type_is_NewLine, orb_false_r.
  destruct (ParseB.type_is "Whitespace" t0) eqn:Hw.
  - apply IH. destruct (Nat.eq_dec current k) as [-> | Hne]; [| lia].
    rewrite Ht in Ht0. injection Ht0 as <-.
    unfold ParseB.type_is in Hw. rewrite Hty in Hw. discriminate.
  - unfold ParseB.parseExpressionStatement.
    destruct (peek_lt tokens "range" current Hlt) as (t' & _ & ->).
    cbn [bind].
    destruct (ParseB.collect tokens fuel [] current) as [[ts c] | e |] eqn:E;
      cbn [bind]; [| now elim (collect_no_throw tokens fuel [] current e)
                   | reflexivity].
    destruct (collect_spec tokens fuel [] current ts c E ltac:(lia))
      as (seg & _ & Hc & Hb & Hnth & Hall & _).
    assert (Hck : c <= k).
    { destruct (Nat.le_gt_cases c k) as [Hck | Hck]; [exact Hck|].
      exfalso.
      assert (Hin : nth_error seg (k - current) = Some t).
      { rewrite Hnth by lia. rewrite <- Ht. f_equal. lia. }
      apply nth_error_In in Hin. rewrite forallb_forall in Hall.
      specialize (Hall t Hin). apply negb_true_iff in Hall.
      apply type_is_Punctuation in Hty. congruence. }
    match goal with
    | |- (if ?x then _ else _) = _ => destruct x eqn:Ex
    end; [| now apply IH].
    apply IH. destruct (Nat.eq_dec c k) as [-> | Hne]; [| lia].
    rewrite Ht, type_is_NewLine, orb_false_r in Ex.
    apply andb_true_iff in Ex. destruct Ex as [_ Ex].
    apply str_eqb_eq in Ex. now elim Hv.
Qed.

(** X20.  The second parser never returns on a token list that holds a
    punctuation token other than the semicolon, wherever it is: the
    top-level loop reaches the first such token, the statement built
    there consumes nothing, nothing else moves the cursor, and the loop
    pushes empty statements for ever.  The lexer of part_000 makes [=],
    [(], [+] and every other character it has no rule for such a
    token. *)
Theorem parseB_loops_on_punctuation :
  forall (tokens : list LexB.token) (k : nat) (t : LexB.token),
    nth_error tokens k = Some t ->
    LexB.type t = LexB.Punctuation ->
    LexB.value t <> lit ";" ->
    forall fuel : nat, ParseB.parse tokens fuel = OutOfFuel.
Proof.
  intros tokens k t Ht Hty Hv fuel. unfold ParseB.parse.
  now rewrite (parseB_parse_loop_diverges tokens k t Ht Hty Hv fuel [] 0)
    by lia.
Qed.

Lemma parseB_parse_loop_total tokens :
  (forall t, In t tokens -> LexB.type t = LexB.Punctuation ->
             LexB.value t = lit ";") ->
  forall fuel body current,
    List.length tokens - current + 1 < fuel ->
    exists b, ParseB.parse_loop tokens fuel body current = Ok b.
Proof.
  intros Hsemi. induction fuel as [| fuel IH]; intros body current Hf;
    [lia|].
  simpl.
  destruct (Nat.ltb_spec current (List.length tokens)) as [Hlt | Hge];
    [| eauto].
  destruct (peek_lt tokens "type" current Hlt) as (t & Ht & ->).
  cbn [bind].
  destruct (ParseB.type_is "Whitespace" t || ParseB.type_is "NewLine" t);
    [apply IH; lia|].
  unfold ParseB.parseExpressionStatement.
  destruct (peek_lt tokens "range" current Hlt) as (t' & _ & ->).
  cbn [bind].
  destruct (collect_total tokens fuel [] current ltac:(lia))
    as [[ts c] Hr].
  rewrite Hr. cbn [bind].
  destruct (collect_spec tokens fuel [] current ts c Hr ltac:(lia))
    as (seg & _ & Hc & Hb & _ & _ & Hstop).
  destruct (Nat.eq_dec c current) as [Heq | Hne].
  - rewrite Heq in *.
    destruct Hstop as [Hend | (t1 & Ht1 & Hty1)]; [lia|].
    destruct (Nat.ltb_spec current (List.length tokens)); [| lia].
    rewrite Ht1, (Hsemi t1 (nth_error_In _ _ Ht1) Hty1). simpl.
    apply IH. lia.
  - match goal with
    | |- exists b, (if ?x then _ else _) = _ =>
        destruct x; apply IH; lia
    end.
Qed.

(** X21.  The second parser returns on every token list whose punctuation
    tokens are all semicolons, within a number of loop passes bounded by
    the length of the list: every pass of the top-level loop then moves
    the cursor.  With X20 this settles when the second parser returns: it
    does exactly when the top-level loop never stands on a punctuation
    token other than the semicolon. *)
Theorem parseB_returns_when_punctuation_is_semicolons :
  forall (tokens : list LexB.token) (fuel : nat),
    (forall t, In t tokens -> LexB.type t = LexB.Punctuation ->
               LexB.value t = lit ";") ->
    List.length tokens + 1 < fuel ->
    exists p, ParseB.parse tokens fuel = Ok p
              /\ ParseB.prog_tokens p = tokens.
Proof.
  intros tokens fuel Hsemi Hfuel. unfold ParseB.parse.
  destruct (parseB_parse_loop_total tokens Hsemi fuel [] 0 ltac:(lia))
    as [b ->].
  cbn [bind]. eexists. split; reflexivity.
Qed.

(** X19 at the tokens of [a b;c], from cursor 0: the statement holds the
    three tokens before the semicolon. *)
Lemma parseB_statement_is_a_maximal_run_witness :
  exists toks stmt,
    LexB.tokenize 9 (lit "a b;c") = Ok toks
    /\ ParseB.parseExpressionStatement toks 9 0 = Ok (stmt, 3)
    /\ (0 <= 3 <= List.length toks
        /\ List.length (ParseB.stmt_tokens stmt) = 3 - 0).
Proof.
  eexists. eexists. split; [vm_compute; reflexivity|].
  split; [vm_compute; reflexivity|].
  refine ((fun H => conj (proj1 H) (proj1 (proj2 H)))
            (parseB_statement_is_a_maximal_run _ 9 0 _ 3 _ _)).
  - simpl. lia.
  - vm_compute. reflexivity.
Defined.

(** X20 at the tokens of [a=1]: the [=] is the token at index 1. *)
Lemma parseB_loops_on_punctuation_witness :
  exists toks,
    LexB.tokenize 9 (lit "a=1") = Ok toks
    /\ forall fuel, ParseB.parse toks fuel = OutOfFuel.
Proof.
  eexists. split; [vm_compute; reflexivity|].
  apply (parseB_loops_on_punctuation _ 1
           {| LexB.type := LexB.Punctuation; LexB.value := lit "=";
              LexB.range := (1%Z, 2%Z);
              LexB.loc := LexB.createLoc 1 1 1 2 |}).
  - reflexivity.
  - reflexivity.
  - discriminate.
Defined.

(** X21 at the tokens of [a b;c]. *)
Lemma parseB_returns_when_punctuation_is_semicolons_witness :
  exists toks,
    LexB.tokenize 9 (lit "a b;c") = Ok toks
    /\ exists p, ParseB.parse toks 7 = Ok p /\ ParseB.prog_tokens p = toks.
Proof.
  eexists. split; [vm_compute; reflexivity|].
  apply parseB_returns_when_punctuation_is_semicolons; [| simpl; lia].
  intros t Hin Hty. simpl in Hin.
  repeat (destruct Hin as [<- | Hin]; [try discriminate Hty; reflexivity|]).
  contradiction.
Defined.

(* ------------------------------------------------------------------ *)
(** ** The lexer of part_000 followed by the second parser *)

Lemma chain_last {T U : Type} (ok : U -> T -> Prop) (next : T -> U)
    (toks : list T) : forall from upto,
  chain ok next from toks upto ->
  match nth_error toks (List.length toks - 1) with
  | Some t => next t = upto
  | None => from = upto
  end.
Proof.
  induction toks as [| t ts IH]; intros from upto H; [exact H|].
  destruct H as [_ H]. specialize (IH _ _ H).
  destruct ts as [| t' ts']; [exact IH|].
  replace (List.length (t :: t' :: ts') - 1) with (S (List.length ts'))
    by (simpl; lia).
  replace (List.length (t' :: ts') - 1) with (List.length ts') in IH
    by (simpl; lia).
  cbn [nth_error].
  destruct (nth_error (t' :: ts') (List.length ts')) eqn:E; [exact IH|].
  apply nth_error_None in E. simpl in E. lia.
Qed.

Lemma lexB_keywords_are_letters v :
  includes LexB.keywords v = true -> forallb alpha v = true.
Proof.
  unfold includes, LexB.keywords. simpl. intros H.
  repeat (apply orb_true_iff in H; destruct H as [H | H]);
    try discriminate; apply str_eqb_eq in H; subst v; reflexivity.
Qed.

Lemma other_not_alnum_ c : LexB.other c = true -> alnum_ c = false.
Proof.
  unfold LexB.other, alnum_, alnum, alpha_. intros H.
  repeat (apply andb_true_iff in H; destruct H as [H ?]).
  destruct (alpha c), (digit c), (N.eqb c 95); simpl in *;
    try discriminate; reflexivity.
Qed.

(** The tokens that hold the characters no rule of the lexer of part_000
    names are its Punctuation tokens. *)
Lemma lexB_other_in_value c t :
  LexB.other c = true -> LexB.kind_ok t = true -> In c (LexB.value t) ->
  LexB.type t = LexB.Punctuation /\ LexB.value t = [c].
Proof.
  intros Ho Hk Hin. pose proof (other_not_alnum_ c Ho) as Hal.
  assert (Hparts : space c = false /\ N.eqb c SLASH = false
                   /\ digit c = false /\ alpha c = false).
  { unfold LexB.other, alpha_ in Ho.
    repeat (apply andb_true_iff in Ho; destruct Ho as [Ho ?]).
    destruct (space c), (N.eqb c SLASH), (digit c), (alpha c);
      simpl in *; try discriminate; auto. }
  destruct Hparts as (Hs & Hsl & Hd & Ha).
  assert (Hall : forall cls l,
            forallb cls l = true -> In c l -> cls c = true).
  { intros cls l Hf. rewrite forallb_forall in Hf. auto. }
  unfold LexB.kind_ok in Hk.
  destruct (LexB.type t), (LexB.value t) as [| x rest] eqn:Ev;
    try discriminate; try contradiction.
  - destruct rest; [| discriminate]. destruct Hin as [<- | []].
    apply N.eqb_eq in Hk. subst x. discriminate.
  - destruct rest; [| discriminate]. destruct Hin as [<- | []]. congruence.
  - destruct rest; [| discriminate]. destruct Hin as [<- | []]. congruence.
  - pose proof (Hall _ _ Hk Hin). congruence.
  - pose proof (Hall _ _ (lexB_keywords_are_letters _ Hk) Hin). congruence.
  - apply andb_true_iff in Hk. destruct Hk as [Hk _].
    apply andb_true_iff in Hk. destruct Hk as [Hx Hrest].
    destruct Hin as [<- | Hin].
    + unfold alnum_, alnum in Hal. unfold alpha_ in Hx.
      rewrite Ha in Hx, Hal. rewrite Hd in Hal. simpl in Hx, Hal.
      congruence.
    + pose proof (Hall _ _ Hrest Hin). congruence.
  - destruct rest; [| discriminate]. destruct Hin as [<- | []]. auto.
Qed.

Lemma lexB_punctuation_value t :
  LexB.kind_ok t = true -> LexB.type t = LexB.Punctuation ->
  exists c, LexB.value t = [c] /\ LexB.other c = true.
Proof.
  unfold LexB.kind_ok. intros Hk Hty. rewrite Hty in Hk.
  destruct (LexB.value t) as [| c [| ? ?]]; try discriminate. eauto.
Qed.

Lemma in_text t toks c :
  In t toks -> In c (LexB.value t) -> In c (LexB.text toks).
Proof.
  intros Ht Hc. unfold LexB.text. apply in_concat.
  exists (LexB.value t). split; [now apply in_map | exact Hc].
Qed.

Lemma text_in toks c :
  In c (LexB.text toks) -> exists t, In t toks /\ In c (LexB.value t).
Proof.
  unfold LexB.text. intros H. apply in_concat in H.
  destruct H as (v & Hv & Hc). apply in_map_iff in Hv.
  destruct Hv as (t & <- & Ht). eauto.
Qed.

(** X22.  The lexer of part_000 followed by the second parser returns on
    every source whose characters are letters, digits, underscores,
    whitespace, slashes and semicolons, and the Program it returns spans
    the whole source: its range runs from 0 to the length of the source
    and it carries the token list of the lexer. *)
Theorem lexB_parseB_returns_on_plain_sources :
  forall source : jsstring,
    (forall c, In c source -> LexB.other c = true -> [c] = lit ";") ->
    exists toks,
      LexB.tokenize (S (List.length source)) source = Ok toks
      /\ forall fuel,
           List.length toks + 1 < fuel ->
           exists p,
             ParseB.parse toks fuel = Ok p
             /\ ParseB.prog_tokens p = toks
             /\ ParseB.prog_range p
                = (0%Z, Z.of_nat (List.length source)).
Proof.
  intros source Hplain.
  destruct (lexB_tokenize_loop_total (S (List.length source)) source
              {| LexB.tokens := []; LexB.current := 0; LexB.cur_line := 1;
                 LexB.cur_column := 0; LexB.insideString := false;
                 LexB.insideRegex := false |}) as [toks H];
    [simpl; lia|].
  change (LexB.tokenize (S (List.length source)) source = Ok toks) in H.
  exists toks. split; [exact H|]. intros fuel Hfuel.
  pose proof (lexB_tokenize_lossless _ _ _ H) as Htext.
  destruct (lexB_tokenize_invariant _ _ _ H)
    as (st & (_ & _ & Hr & _ & Hk & _) & <- & Hend).
  rewrite Hend in Hr. rewrite forallb_forall in Hk.
  assert (Hsemi : forall t, In t (LexB.tokens st) ->
            LexB.type t = LexB.Punctuation -> LexB.value t = lit ";").
  { intros t Hin Hty.
    destruct (lexB_punctuation_value t (Hk t Hin) Hty) as (c & Hv & Ho).
    rewrite Hv. apply Hplain; [| exact Ho].
    rewrite <- Htext. apply (in_text t); [exact Hin|].
    rewrite Hv. now left. }
  unfold ParseB.parse.
  destruct (parseB_parse_loop_total (LexB.tokens st) Hsemi fuel [] 0
              ltac:(lia)) as [b ->].
  cbn [bind]. eexists. split; [reflexivity|]. split; [reflexivity|].
  cbn [ParseB.prog_range].
  pose proof (chain_last _ _ _ _ _ Hr) as Hlast.
  destruct (LexB.tokens st) as [| t ts] eqn:Et.
  - simpl in *. now rewrite <- Hlast.
  - destruct Hr as [Hfirst _]. unfold LexB.starts_at in Hfirst.
    cbn [nth_error]. rewrite Hfirst.
    destruct (nth_error (t :: ts) (List.length (t :: ts) - 1)) as [l |]
      eqn:El; [now rewrite Hlast|].
    apply nth_error_None in El. simpl in El. lia.
Qed.

(** X23.  The lexer of part_000 followed by the second parser never
    returns on a source that holds, anywhere, a character other than a
    letter, a digit, an underscore, whitespace, a slash or a semicolon:
    the lexer makes it a Punctuation token, and the parser's top-level
    loop stops on the first such token for ever. *)
Theorem lexB_parseB_never_returns_on_other_punctuation :
  forall (source : jsstring) (c : codeunit),
    In c source ->
    LexB.other c = true ->
    [c] <> lit ";" ->
    exists toks,
      LexB.tokenize (S (List.length source)) source = Ok toks
      /\ forall fuel, ParseB.parse toks fuel = OutOfFuel.
Proof.
  intros source c Hin Ho Hc.
  destruct (lexB_tokenize_loop_total (S (List.length source)) source
              {| LexB.tokens := []; LexB.current := 0; LexB.cur_line := 1;
                 LexB.cur_column := 0; LexB.insideString := false;
                 LexB.insideRegex := false |}) as [toks H];
    [simpl; lia|].
  change (LexB.tokenize (S (List.length source)) source = Ok toks) in H.
  exists toks. split; [exact H|]. intros fuel.
  pose proof (lexB_tokenize_lossless _ _ _ H) as Htext.
  destruct (lexB_tokenize_invariant _ _ _ H)
    as (st & (_ & _ & _ & _ & Hk & _) & <- & _).
  rewrite forallb_forall in Hk. rewrite <- Htext in Hin.
  destruct (text_in _ _ Hin) as (t & Ht & Hcv).
  destruct (lexB_other_in_value c t Ho (Hk t Ht) Hcv) as [Hty Hv].
  destruct (In_nth_error _ _ Ht) as [k Hnth].
  unfold ParseB.parse.
  rewrite (parseB_parse_loop_diverges (LexB.tokens st) k t Hnth Hty)
    by (lia || (rewrite Hv; exact Hc)).
  reflexivity.
Qed.

(** X22 at the source [let x1;], a newline, [/ab/ y_2;]. *)
Lemma lexB_parseB_returns_on_plain_sources_witness :
  exists toks,
    LexB.tokenize
      (S (List.length (lit "let x1;" ++ [NL] ++ lit "/ab/ y_2;")))
      (lit "let x1;" ++ [NL] ++ lit "/ab/ y_2;") = Ok toks
    /\ forall fuel,
         List.length toks + 1 < fuel ->
         exists p,
           ParseB.parse toks fuel = Ok p
           /\ ParseB.prog_tokens p = toks
           /\ ParseB.prog_range p
              = (0%Z,
                 Z.of_nat
                   (List.length
                      (lit "let x1;" ++ [NL] ++ lit "/ab/ y_2;"))).
Proof.
  apply (lexB_parseB_returns_on_plain_sources
           (lit "let x1;" ++ [NL] ++ lit "/ab/ y_2;")).
  intros c Hin Ho. vm_compute in Hin.
  repeat (destruct Hin as [<- | Hin]; [first [discriminate Ho | reflexivity]|]).
  contradiction.
Defined.

(** X23 at the source [a = 1;] and its [=]. *)
Lemma lexB_parseB_never_returns_on_other_punctuation_witness :
  exists toks,
    LexB.tokenize (S (List.length (lit "a = 1;"))) (lit "a = 1;") = Ok toks
    /\ forall fuel, ParseB.parse toks fuel = OutOfFuel.
Proof.
  apply (lexB_parseB_never_returns_on_other_punctuation (lit "a = 1;") 61%N).
  - vm_compute. tauto.
  - reflexivity.
  - discriminate.
Defined.

(* ------------------------------------------------------------------ *)
(** ** The lexer of src/parser.js on a source that ends in an identifier *)

Lemma alnum_is_not (x y : codeunit) :
  alnum x = true -> alnum y = false -> N.eqb x y = false.
Proof.
  intros Hx Hy. destruct (N.eqb_spec x y) as [<- |]; [| reflexivity].
  congruence.
Qed.

Lemma alnum_ends_no_operator (d x : codeunit) :
  alnum x = true -> includes LexA.OPERATORS [d; x] = false.
Proof.
  intros Hx.
  destruct (includes LexA.OPERATORS [d; x]) eqn:E; [| reflexivity].
  unfold includes in E. apply existsb_exists in E.
  destruct E as (s & Hin & Heq). apply str_eqb_eq in Heq. subst s.
  unfold LexA.OPERATORS in Hin. simpl in Hin.
  repeat (destruct Hin as [Hin | Hin];
          [first [discriminate Hin
                 | injection Hin as <- <-; vm_compute in Hx;
                   discriminate Hx]|]).
  contradiction.
Qed.

Section TrailingIdentifier.

(** [L] is a letter at offset [p] of [code], and only letters and digits
    follow it up to the end. *)
Variable code : jsstring.
Variable p : nat.
Variable L : codeunit.
Hypothesis Hp : char_at code p = Some L.
Hypothesis HL : alpha L = true.
Hypothesis Hrest :
  forall i x, p < i -> char_at code i = Some x -> alnum x = true.

Lemma letter_bounds :
  (97 <= L <= 122)%N \/ (65 <= L <= 90)%N.
Proof.
  unfold alpha, in_range in HL.
  apply orb_true_iff in HL. destruct HL as [H | H];
    apply andb_true_iff in H; destruct H as [H1 H2];
    apply N.leb_le in H1; apply N.leb_le in H2; [left | right]; lia.
Qed.

Lemma letter_is_not (x : codeunit) :
  alpha x = false -> N.eqb L x = false.
Proof.
  intros Hx. destruct (N.eqb_spec L x) as [<- |]; [| reflexivity].
  congruence.
Qed.

Lemma letter_not_space : space L = false.
Proof.
  unfold space, in_range. cbn [existsb].
  rewrite !letter_is_not by reflexivity. cbn [orb].
  destruct letter_bounds as [H | H];
    (destruct (N.leb_spec 8192 L); [lia | reflexivity]).
Qed.

Lemma letter_not_digit : digit L = false.
Proof.
  unfold digit, in_range.
  destruct letter_bounds as [H | H];
    (destruct (N.leb_spec L 57); [lia | apply andb_false_r]).
Qed.

Lemma letter_not_in (table : list jsstring) (prefix : jsstring) :
  forallb (forallb (fun x => negb (alpha x)))
    (List.map (fun s => skipn (List.length prefix) s)
       (List.filter (fun s => List.length prefix <? List.length s) table))
  = true ->
  includes table (prefix ++ [L]) = false.
Proof.
  intros Hletters.
  destruct (includes table (prefix ++ [L])) eqn:E; [| reflexivity].
  unfold includes in E. apply existsb_exists in E.
  destruct E as (s & Hin & Heq). apply str_eqb_eq in Heq. subst s.
  rewrite forallb_forall in Hletters.
  specialize (Hletters [L]).
  assert (Hx : forallb (fun x => negb (alpha x)) [L] = true).
  { apply Hletters. apply in_map_iff. exists (prefix ++ [L]). split.
    - rewrite skipn_app, skipn_all, Nat.sub_diag. reflexivity.
    - apply filter_In. split; [exact Hin|].
      apply Nat.ltb_lt. rewrite length_app. simpl. lia. }
  simpl in Hx. rewrite HL in Hx. discriminate.
Qed.

Lemma letter_no_operator : includes LexA.OPERATORS [L] = false.
Proof. apply (letter_not_in LexA.OPERATORS []); reflexivity. Qed.

Lemma letter_no_punctuation : includes LexA.PUNCTUATIONS [L] = false.
Proof. apply (letter_not_in LexA.PUNCTUATIONS []); reflexivity. Qed.

Lemma at_letter i c :
  char_at code i = Some c -> i = p -> c = L.
Proof. intros Hc ->. congruence. Qed.

(** From the letter on, the source holds letters and digits only. *)
Lemma from_letter i x :
  p <= i -> char_at code i = Some x -> alnum x = true.
Proof.
  intros Hi Hx. destruct (Nat.eq_dec i p) as [-> | Hne].
  - rewrite Hp in Hx. injection Hx as <-. unfold alnum. now rewrite HL.
  - apply (Hrest i); [lia | exact Hx].
Qed.

(** A pass of the loop that returns leaves the cursor at or before the
    letter: no rule but the identifier rule takes a letter or a digit
    that follows a token it has begun, and the identifier rule does not
    stop before a letter or digit, nor at the end of the source. *)
Lemma lexA_iteration_before_letter fuel st st' :
  LexA.current st <= p ->
  LexA.iteration fuel code st = Ok st' ->
  LexA.current st' <= p.
Proof.
  intros Hle H.
  assert (Hlt : LexA.current st < List.length code).
  { pose proof (char_at_some_lt _ _ _ Hp) as Hpl.
    apply Nat.ltb_lt in Hpl. lia. }
  destruct (char_at_lt _ _ Hlt) as [c Hc].
  pose proof letter_not_space as HLs.
  pose proof letter_not_digit as HLd.
  assert (Hstep : forall P : Prop,
            (c = L -> P -> False) -> P -> S (LexA.current st) <= p).
  { intros P HP Hyes.
    destruct (Nat.eq_dec (LexA.current st) p) as [Heq | Hne]; [| lia].
    now elim (HP (at_letter _ _ Hc Heq) Hyes). }
  unfold LexA.iteration in H. rewrite Hc in H.
  unfold regex_test in H. cbn [to_str existsb char_eqb] in H.
  rewrite !orb_false_r in H.
  destruct (N.eqb c NL) eqn:E1.
  { injection H as <-. cbn [LexA.current].
    apply (Hstep (N.eqb c NL = true)); [| exact E1].
    intros -> HE. rewrite letter_is_not in HE by reflexivity.
    discriminate. }
  cbn [negb andb] in H. rewrite andb_true_r in H.
  destruct (space c) eqn:E2.
  { injection H as <-. cbn [LexA.current].
    apply (Hstep (space c = true)); [| exact E2].
    intros -> HE. congruence. }
  destruct (N.eqb c SLASH
            && char_eqb (char_at code (LexA.current st + 1)) (Some SLASH))
    eqn:E3.
  { destruct (scan_while _ fuel code [] (Some c) (LexA.current st))
      as [[v cur'] | e |] eqn:E; cbn [bind] in H; try discriminate.
    injection H as <-. cbn [LexA.current].
    destruct (scan_while_chars _ _ _ _ _ _ _ _ (eq_sym Hc) ltac:(lia) E)
      as (seg & _ & -> & Hb & _ & Hstop & _).
    destruct (char_at code (LexA.current st + List.length seg)) as [d |]
      eqn:Hd; [| discriminate].
    simpl in Hstop. apply negb_false_iff, N.eqb_eq in Hstop. subst d.
    destruct (Nat.le_gt_cases p (LexA.current st + List.length seg))
      as [Hge | Hlow]; [| lia].
    pose proof (from_letter _ _ Hge Hd) as Hal. discriminate Hal. }
  destruct (digit c) eqn:E4.
  { destruct (scan_while _ fuel code [] (Some c) (LexA.current st))
      as [[v cur'] | e |] eqn:E; cbn [bind] in H; try discriminate.
    injection H as <-. cbn [LexA.current].
    destruct (scan_while_chars _ _ _ _ _ _ _ _ (eq_sym Hc) ltac:(lia) E)
      as (seg & _ & -> & Hb & Hall & _ & Hnth).
    destruct (Nat.le_gt_cases (LexA.current st + List.length seg) p)
      as [Hlow | Hgt]; [exact Hlow|].
    exfalso.
    assert (Hin : nth_error seg (p - LexA.current st) = Some L).
    { rewrite Hnth by lia. rewrite <- Hp. f_equal. lia. }
    apply nth_error_In in Hin. rewrite forallb_forall in Hall.
    specialize (Hall L Hin). cbn [to_str existsb] in Hall.
    rewrite orb_false_r in Hall. congruence. }
  destruct (N.eqb c DQUOTE || N.eqb c SQUOTE) eqn:E5.
  { destruct (scan_while _ fuel code [] _ (S (LexA.current st)))
      as [[v cur'] | e |] eqn:E; cbn [bind] in H; try discriminate.
    injection H as <-. cbn [LexA.current].
    pose proof (fun Hb => scan_while_chars _ _ _ _ _ _ _ _ eq_refl Hb E)
      as Hf.
    destruct Hf as (seg & _ & -> & Hb & _ & Hstop & _); [lia|].
    destruct (char_at code (S (LexA.current st) + List.length seg))
      as [d |] eqn:Hd; [| discriminate].
    simpl in Hstop. apply negb_false_iff, N.eqb_eq in Hstop. subst d.
    destruct (Nat.le_gt_cases p (S (LexA.current st) + List.length seg))
      as [Hge | Hlow]; [| lia].
    pose proof (from_letter _ _ Hge Hd) as Hal.
    rewrite !(alnum_is_not c) in E5 by (exact Hal || reflexivity).
    discriminate. }
  destruct (alpha c) eqn:E6.
  { destruct (scan_while _ fuel code [] (Some c) (LexA.current st))
      as [[v cur'] | e |] eqn:E; cbn [bind] in H; try discriminate.
    assert (Hcur : LexA.current st' = cur').
    { destruct (includes LexA.KEYWORDS v); injection H as <-;
        reflexivity. }
    rewrite Hcur.
    destruct (scan_while_chars _ _ _ _ _ _ _ _ (eq_sym Hc) ltac:(lia) E)
      as (seg & _ & -> & Hb & _ & Hstop & _).
    destruct (char_at code (LexA.current st + List.length seg)) as [d |]
      eqn:Hd; [| discriminate].
    cbn [to_str existsb] in Hstop. rewrite orb_false_r in Hstop.
    destruct (Nat.le_gt_cases p (LexA.current st + List.length seg))
      as [Hge | Hlow]; [| lia].
    pose proof (from_letter _ _ Hge Hd) as Hal. congruence. }
  destruct (includes LexA.OPERATORS [c]) eqn:E7.
  { destruct (includes LexA.OPERATORS
                ([c] ++ to_str (char_at code (S (LexA.current st)))))
      eqn:E8; injection H as <-; cbn [LexA.current].
    - destruct (char_at code (S (LexA.current st))) as [d |] eqn:Hd.
      + destruct (Nat.le_gt_cases p (S (LexA.current st)))
          as [Hge | Hlow]; [| lia].
        pose proof (from_letter _ _ Hge Hd) as Hal.
        cbn [to_str app] in E8.
        rewrite (alnum_ends_no_operator c d Hal) in E8. discriminate.
      + apply operator_length in E8. simpl in E8. lia.
    - apply (Hstep (includes LexA.OPERATORS [c] = true)); [| exact E7].
      intros -> HE. rewrite letter_no_operator in HE. discriminate. }
  destruct (includes LexA.PUNCTUATIONS [c]) eqn:E9; [| discriminate].
  injection H as <-. cbn [LexA.current].
  apply (Hstep (includes LexA.PUNCTUATIONS [c] = true)); [| exact E9].
  intros -> HE. rewrite letter_no_punctuation in HE. discriminate.
Qed.

Lemma lexA_tokenize_loop_before_letter fuel : forall st toks,
  LexA.current st <= p ->
  LexA.tokenize_loop fuel code st <> Ok toks.
Proof.
  pose proof (char_at_some_lt _ _ _ Hp) as Hpl. apply Nat.ltb_lt in Hpl.
  induction fuel as [| fuel IH]; intros st toks Hle; [discriminate|].
  simpl. destruct (Nat.ltb_spec (LexA.current st) (List.length code));
    [| lia].
  destruct (LexA.iteration fuel code st) as [st1 | e |] eqn:E;
    cbn [bind]; try discriminate.
  apply IH. exact (lexA_iteration_before_letter _ _ _ Hle E).
Qed.

End TrailingIdentifier.

(** X11.  The lexer of src/parser.js returns no token list for a source
    that ends in an identifier or keyword, that is in an ASCII letter
    followed by any number of letters and digits, whatever precedes it:
    the cursor of the main loop never gets past that letter, since no
    rule but the identifier rule takes a letter or digit after the start
    of its token, and the identifier loop, which has no end-of-input
    test, does not stop at the end of the source, where [undefined]
    passes the test [/[a-zA-Z0-9]/]. *)
Theorem lexA_never_returns_on_trailing_identifier :
  forall (pre : jsstring) (c : codeunit) (rest : jsstring),
    alpha c = true ->
    forallb alnum rest = true ->
    forall (fuel : nat) (toks : list LexA.token),
      LexA.tokenize fuel (pre ++ c :: rest) <> Ok toks.
Proof.
  intros pre c rest Hc Hrest fuel toks.
  apply (lexA_tokenize_loop_before_letter (pre ++ c :: rest)
           (List.length pre) c).
  - apply nth_error_middle.
  - exact Hc.
  - intros i x Hi Hx. unfold char_at in Hx.
    rewrite nth_error_app2 in Hx by lia.
    destruct (i - List.length pre) as [| k] eqn:Ek; [lia|].
    simpl in Hx. apply nth_error_In in Hx.
    rewrite forallb_forall in Hrest. now apply Hrest.
  - simpl. lia.
Qed.

(** X24.  The lexer of src/parser.js returns no token list for a source
    whose last character is an ASCII letter, whatever precedes it: no
    rule but the identifier rule consumes a letter as the last character
    of its token without needing a character after it, and the identifier
    loop has no end-of-input test, so the cursor never reaches the end of
    the source. *)
Theorem lexA_never_returns_on_trailing_letter :
  forall (code : jsstring) (c : codeunit),
    alpha c = true ->
    forall (fuel : nat) (toks : list LexA.token),
      LexA.tokenize fuel (code ++ [c]) <> Ok toks.
Proof.
  intros code c Hc fuel toks.
  apply (lexA_tokenize_loop_before_letter (code ++ [c])
           (List.length code) c).
  - apply nth_error_middle.
  - exact Hc.
  - intros i x Hi Hx. unfold char_at in Hx.
    rewrite nth_error_app2 in Hx by lia.
    destruct (i - List.length code) as [| [| k]] eqn:Ek;
      [lia | discriminate | discriminate].
  - simpl. lia.
Qed.

(** X11 at the source [a = x1]. *)
Lemma lexA_never_returns_on_trailing_identifier_witness :
  alpha 120%N = true
  /\ forallb alnum (lit "1") = true
  /\ forall fuel toks, LexA.tokenize fuel (lit "a = x1") <> Ok toks.
Proof.
  split; [reflexivity|]. split; [reflexivity|].
  apply (lexA_never_returns_on_trailing_identifier
           (lit "a = ") 120%N (lit "1"));
    reflexivity.
Defined.

(** X24 at the source [let x]. *)
Lemma lexA_never_returns_on_trailing_letter_witness :
  alpha 120%N = true
  /\ forall fuel toks, LexA.tokenize fuel (lit "let x") <> Ok toks.
Proof.
  split; [reflexivity|].
  apply (lexA_never_returns_on_trailing_letter (lit "let ") 120%N).
  reflexivity.
Defined.
